(** * XOR_decrypter: the byte-level core of [utils/cryptoUtils.ts]

    A shallow embedding of the XOR transform and of the key codec
    (hex, base64, UTF-8 text), together with the properties the
    specification states about them.

    Conventions.
    - A [Uint8Array] (and an [ArrayBuffer]) is a [list Z]; the elements a
      typed array can hold satisfy [is_u8], and every store into one goes
      through [ToUint8].
    - A JavaScript string is the list of its UTF-16 code units ([jsstring]).
    - A JavaScript value that may be [undefined] / [NaN] / a thrown
      exception is an [option]. *)

From Stdlib Require Import ZArith Lia String Ascii.
From stdpp Require Import base list.

Local Open Scope Z_scope.

(** ** JavaScript primitives used by the source *)

Module JS.

(** Code units of a JavaScript string. *)
Abbreviation jsstring := (list Z) (only parsing).

(** A string literal of the source, as code units. *)
Fixpoint lit (s : string) : jsstring :=
  match s with
  | EmptyString => []
  | String c r => Z.of_N (N_of_ascii c) :: lit r
  end.

(** ECMAScript [ToInt32]; [undefined] (an out-of-range read) becomes 0. *)
Definition ToInt32 (v : option Z) : Z :=
  match v with
  | None => 0
  | Some x => (x + 2 ^ 31) mod 2 ^ 32 - 2 ^ 31
  end.

(** ECMAScript [ToUint8], the conversion applied by a store into a
    [Uint8Array]; [NaN] becomes 0. *)
Definition ToUint8 (v : option Z) : Z :=
  match v with
  | None => 0
  | Some x => x mod 256
  end.

(** ECMAScript [ToUint16] as used by [String.fromCharCode]. *)
Definition ToUint16 (v : option Z) : Z :=
  match v with
  | None => 0
  | Some x => x mod 65536
  end.

(** The [^] operator. *)
Definition bitxor (a b : option Z) : Z := Z.lxor (ToInt32 a) (ToInt32 b).

(** [new Uint8Array(n)]: [n] zero bytes. *)
Definition new_Uint8Array (n : nat) : list Z := replicate n 0.

(** [a[i] = v] on a [Uint8Array]: converted by [ToUint8]; a store out of
    range is ignored. *)
Definition store (a : list Z) (i : nat) (v : option Z) : list Z :=
  <[i := ToUint8 v]> a.

(** [for (let i = i0; i < i0 + n; i++) body], threading the state the
    body mutates. *)
Fixpoint for_loop {St : Type} (n : nat) (i : nat) (body : nat -> St -> St)
    (s : St) : St :=
  match n with
  | O => s
  | S n' => for_loop n' (S i) body (body i s)
  end.

(** *** Strings *)

(** Membership in the character class [[0-9a-fA-F]]: the code units 48
    to 57, 97 to 102 and 65 to 70. *)
Definition is_hex_char (c : Z) : bool :=
  ((48 <=? c) && (c <=? 57)) || ((97 <=? c) && (c <=? 102))
  || ((65 <=? c) && (c <=? 70)).

(** [s.replace(/[^0-9a-fA-F]/g, '')]: every code unit outside the class
    is deleted. *)
Definition replace_non_hex (s : jsstring) : jsstring :=
  List.filter is_hex_char s.

(** ECMAScript [LineTerminator]: the code units the pattern [.] does not
    match (LF, CR, LS, PS). *)
Definition is_line_terminator (c : Z) : bool :=
  (c =? 10) || (c =? 13) || (c =? 8232) || (c =? 8233).

(** All matches of [/.{1,2}/g], left to right: at each position the
    quantifier greedily takes two characters when it can, one otherwise;
    a position holding a line terminator matches nothing and is
    skipped. *)
Fixpoint dot12_matches (s : jsstring) : list jsstring :=
  match s with
  | [] => []
  | c :: r =>
      if is_line_terminator c then dot12_matches r
      else
        match r with
        | [] => [[c]]
        | d :: r' =>
            if is_line_terminator d then [c] :: dot12_matches r
            else [c; d] :: dot12_matches r'
        end
  end.

(** [s.match(/.{1,2}/g)]: [null] when there is no match. *)
Definition match_dot12 (s : jsstring) : option (list jsstring) :=
  match dot12_matches s with
  | [] => None
  | m => Some m
  end.

(** ECMAScript [WhiteSpace] and [LineTerminator], which [parseInt]
    skips at the start of its argument. *)
Definition is_str_white_space (c : Z) : bool :=
  (c =? 9) || (c =? 11) || (c =? 12) || (c =? 32) || (c =? 160)
  || (c =? 65279) || (c =? 5760) || ((8192 <=? c) && (c <=? 8202))
  || (c =? 8239) || (c =? 8287) || (c =? 12288) || is_line_terminator c.

Fixpoint trim_start (s : jsstring) : jsstring :=
  match s with
  | c :: r => if is_str_white_space c then trim_start r else s
  | [] => []
  end.

(** Value of a code unit as a digit ([0-9], [a-z], [A-Z]), if it is one. *)
Definition digit_value (c : Z) : option Z :=
  if (48 <=? c) && (c <=? 57) then Some (c - 48)
  else if (97 <=? c) && (c <=? 122) then Some (c - 87)
  else if (65 <=? c) && (c <=? 90) then Some (c - 55)
  else None.

(** Digits of radix 16 at the start of [s], accumulated most significant
    first; the count of digits read is returned with the value. *)
Fixpoint read_hex_digits (s : jsstring) (count : nat) (acc : Z) : nat * Z :=
  match s with
  | [] => (count, acc)
  | c :: r =>
      match digit_value c with
      | Some d => if d <? 16 then read_hex_digits r (S count) (acc * 16 + d)
                  else (count, acc)
      | None => (count, acc)
      end
  end.

(** [parseInt(s, 16)]; [None] is [NaN]. Leading white space is skipped,
    a sign is read ([-] is 45, [+] is 43), a prefix [0x] or [0X] is
    removed ([0] is 48, [x] is 120, [X] is 88), and the longest run of
    hexadecimal digits that follows is the value. *)
Definition parseInt16 (s : jsstring) : option Z :=
  let s1 := trim_start s in
  let '(sign, s2) :=
    match s1 with
    | 45 :: r => (-1, r)
    | 43 :: r => (1, r)
    | _ => (1, s1)
    end in
  let s3 :=
    match s2 with
    | 48 :: 120 :: r => r
    | 48 :: 88 :: r => r
    | _ => s2
    end in
  match read_hex_digits s3 0 0 with
  | (O, _) => None
  | (_, v) => Some (sign * v)
  end.

(** The digit characters of [Number.prototype.toString]: [0] to [9], then
    lowercase letters from [a] (97). *)
Definition digit_char (d : Z) : Z := if d <? 10 then 48 + d else 87 + d.

Fixpoint hex_digits_of (fuel : nat) (n : Z) (acc : jsstring) : jsstring :=
  match fuel with
  | O => acc
  | S fuel' =>
      let acc' := digit_char (n mod 16) :: acc in
      if n / 16 =? 0 then acc' else hex_digits_of fuel' (n / 16) acc'
  end.

(** [n.toString(16)] for an integer [n]; a negative number has the sign
    [-] (45) in front. *)
Definition toString16 (n : Z) : jsstring :=
  if n <? 0 then 45 :: hex_digits_of (S (Z.to_nat (Z.log2 (- n)))) (- n) []
  else hex_digits_of (S (Z.to_nat (Z.log2 n))) n [].

(** [s.padStart(target, fill)] with a one-character [fill]. *)
Definition padStart (s : jsstring) (target : nat) (fill : Z) : jsstring :=
  replicate (target - length s) fill ++ s.

(** [parts.join('')]. *)
Definition join_empty (parts : list jsstring) : jsstring := concat parts.

(** [new Uint8Array(numbers)]: every element converted by [ToUint8]. *)
Definition Uint8Array_of (numbers : list (option Z)) : list Z :=
  map ToUint8 numbers.

(** [String.fromCharCode(v)]: the code unit [ToUint16(v)]. *)
Definition fromCharCode (v : option Z) : Z := ToUint16 v.

(** [s.charCodeAt(i)]: [NaN] out of range. *)
Definition charCodeAt (s : jsstring) (i : nat) : option Z := s !! i.

(** *** Base64: [btoa] and [atob]

    [btoa] is the base64 encoding of RFC 4648 section 4 (with padding, no
    line breaks) of a string of code units below 256; [atob] is the
    forgiving base64 decoding of the WHATWG Infra standard. Both throw
    [InvalidCharacterError], rendered as [None]. *)

(** The alphabet of RFC 4648, table 1: [A-Z] (from 65), [a-z] (from 97),
    [0-9] (from 48), [+] (43) and [/] (47); the padding character [=] is
    61. *)
Definition b64_char (v : Z) : Z :=
  if v <? 26 then 65 + v
  else if v <? 52 then 71 + v
  else if v <? 62 then v - 4
  else if v =? 62 then 43
  else 47.

Definition b64_value (c : Z) : option Z :=
  if (65 <=? c) && (c <=? 90) then Some (c - 65)
  else if (97 <=? c) && (c <=? 122) then Some (c - 71)
  else if (48 <=? c) && (c <=? 57) then Some (c + 4)
  else if c =? 43 then Some 62
  else if c =? 47 then Some 63
  else None.

(** The sextet of [n] that starts at bit [k]. *)
Definition sextet (n : Z) (k : Z) : Z := Z.land (Z.shiftr n k) 63.

(** The octet of [n] that starts at bit [k]. *)
Definition octet (n : Z) (k : Z) : Z := Z.land (Z.shiftr n k) 255.

(** Encoding of a byte sequence: 24-bit groups become four characters;
    a final group of 8 or 16 bits is padded with zero bits to 12 or 18
    bits and completed with [=]. *)
Fixpoint b64_encode (bytes : list Z) : jsstring :=
  match bytes with
  | [] => []
  | [a] =>
      let n := Z.shiftl a 4 in
      [b64_char (sextet n 6); b64_char (sextet n 0); 61; 61]
  | [a; b] =>
      let n := Z.shiftl (Z.lor (Z.shiftl a 8) b) 2 in
      [b64_char (sextet n 12); b64_char (sextet n 6); b64_char (sextet n 0); 61]
  | a :: b :: c :: r =>
      let n := Z.lor (Z.shiftl (Z.lor (Z.shiftl a 8) b) 8) c in
      b64_char (sextet n 18) :: b64_char (sextet n 12)
        :: b64_char (sextet n 6) :: b64_char (sextet n 0) :: b64_encode r
  end.

Definition btoa (data : jsstring) : option jsstring :=
  if forallb (fun c => (0 <=? c) && (c <=? 255)) data
  then Some (b64_encode data)
  else None.

(** ASCII whitespace of the Infra standard: TAB, LF, FF, CR, SPACE. *)
Definition is_ascii_whitespace (c : Z) : bool :=
  (c =? 9) || (c =? 10) || (c =? 12) || (c =? 13) || (c =? 32).

(** Step 2 of the decoding: when the length is a multiple of four, one or
    two [=] at the end are removed. *)
Definition strip_padding (data : jsstring) : jsstring :=
  if Nat.eqb (length data mod 4) 0 then
    match rev data with
    | c1 :: c2 :: r =>
        if (c1 =? 61) && (c2 =? 61) then rev r
        else if c1 =? 61 then rev (c2 :: r)
        else data
    | [c1] => if c1 =? 61 then [] else data
    | [] => data
    end
  else data.

(** The values of the characters, or [None] when one of them is outside
    the alphabet (step 4). *)
Fixpoint b64_values (data : jsstring) : option (list Z) :=
  match data with
  | [] => Some []
  | c :: r =>
      match b64_value c, b64_values r with
      | Some v, Some vs => Some (v :: vs)
      | _, _ => None
      end
  end.

(** Steps 5 to 10: a bit buffer [buf] holding [n] sextets; three bytes
    are output each time it fills up to 24 bits, and what is left at the
    end gives one byte (12 bits) or two (18 bits). *)
Fixpoint b64_drain (vs : list Z) (buf : Z) (n : nat) : list Z :=
  match vs with
  | [] =>
      match n with
      | 2%nat => [octet (Z.shiftr buf 4) 0]
      | 3%nat => [octet (Z.shiftr buf 2) 8; octet (Z.shiftr buf 2) 0]
      | _ => []
      end
  | v :: r =>
      let buf' := Z.lor (Z.shiftl buf 6) v in
      if Nat.eqb (S n) 4
      then octet buf' 16 :: octet buf' 8 :: octet buf' 0 :: b64_drain r 0 0
      else b64_drain r buf' (S n)
  end.

Definition atob (data : jsstring) : option jsstring :=
  let data1 := List.filter (fun c => negb (is_ascii_whitespace c)) data in
  let data2 := strip_padding data1 in
  if Nat.eqb (length data2 mod 4) 1 then None
  else
    match b64_values data2 with
    | None => None
    | Some vs => Some (b64_drain vs 0 0)
    end.

(** *** UTF-8: [TextEncoder] and [TextDecoder]

    The UTF-8 decoder and encoder of the WHATWG Encoding standard, the
    conversion between scalar values and the code units of a string, and
    the two methods the source calls. *)

(** The state of the UTF-8 decoder. *)
Record utf8_decoder : Type := Utf8Decoder {
  code_point : Z;
  bytes_seen : nat;
  bytes_needed : nat;
  lower_boundary : Z;
  upper_boundary : Z
}.

Definition utf8_decoder_init : utf8_decoder :=
  Utf8Decoder 0 0 0 0x80 0xBF.

(** What the handler of the decoder returns for a byte. *)
Inductive handler_result : Type :=
| Continue (st : utf8_decoder)
| Emit (cp : Z) (st : utf8_decoder)
| DecodeError.

Definition in_range (lo x hi : Z) : bool := (lo <=? x) && (x <=? hi).

(** The handler of the UTF-8 decoder for one byte. *)
Definition utf8_decoder_handler (st : utf8_decoder) (byte : Z) : handler_result :=
  if Nat.eqb (bytes_needed st) 0 then
    if in_range 0x00 byte 0x7F then Emit byte st
    else if in_range 0xC2 byte 0xDF then
      Continue (Utf8Decoder (Z.land byte 0x1F) (bytes_seen st) 1
                  (lower_boundary st) (upper_boundary st))
    else if in_range 0xE0 byte 0xEF then
      Continue (Utf8Decoder (Z.land byte 0xF) (bytes_seen st) 2
                  (if byte =? 0xE0 then 0xA0 else lower_boundary st)
                  (if byte =? 0xED then 0x9F else upper_boundary st))
    else if in_range 0xF0 byte 0xF4 then
      Continue (Utf8Decoder (Z.land byte 0x7) (bytes_seen st) 3
                  (if byte =? 0xF0 then 0x90 else lower_boundary st)
                  (if byte =? 0xF4 then 0x8F else upper_boundary st))
    else DecodeError
  else if negb (in_range (lower_boundary st) byte (upper_boundary st)) then
    DecodeError
  else
    let cp := Z.lor (Z.shiftl (code_point st) 6) (Z.land byte 0x3F) in
    let seen := S (bytes_seen st) in
    if negb (Nat.eqb seen (bytes_needed st)) then
      Continue (Utf8Decoder cp seen (bytes_needed st) 0x80 0xBF)
    else Emit cp utf8_decoder_init.

(** The decoder run over a whole input in fatal mode: the scalar values
    decoded, or [None] at the first error; an input that ends inside a
    sequence is an error. *)
Fixpoint utf8_decode (st : utf8_decoder) (bytes : list Z) : option (list Z) :=
  match bytes with
  | [] => if Nat.eqb (bytes_needed st) 0 then Some [] else None
  | byte :: r =>
      match utf8_decoder_handler st byte with
      | Continue st' => utf8_decode st' r
      | Emit cp st' =>
          match utf8_decode st' r with
          | Some cps => Some (cp :: cps)
          | None => None
          end
      | DecodeError => None
      end
  end.

(** The code units of a scalar value in a string. *)
Definition code_units_of (cp : Z) : jsstring :=
  if cp <=? 0xFFFF then [cp]
  else
    let v := cp - 0x10000 in
    [0xD800 + Z.shiftr v 10; 0xDC00 + Z.land v 0x3FF].

(** With [ignoreBOM] false, a byte order mark at the very start of the
    decoded text is not part of the result. *)
Definition drop_bom (cps : list Z) : list Z :=
  match cps with
  | cp :: r => if cp =? 0xFEFF then r else cps
  | [] => []
  end.

(** [new TextDecoder('utf-8', { fatal: true }).decode(bytes)]; [None]
    is the [TypeError] thrown on malformed input. *)
Definition TextDecoder_decode (bytes : list Z) : option jsstring :=
  match utf8_decode utf8_decoder_init bytes with
  | Some cps => Some (flat_map code_units_of (drop_bom cps))
  | None => None
  end.

(** The scalar values of a string (conversion to a [USVString]): a
    surrogate pair is one scalar value, a surrogate on its own is
    U+FFFD. *)
Fixpoint scalar_values (s : jsstring) : list Z :=
  match s with
  | [] => []
  | c :: r =>
      if (c <? 0xD800) || (0xDFFF <? c) then c :: scalar_values r
      else if 0xDC00 <=? c then 0xFFFD :: scalar_values r
      else
        match r with
        | [] => [0xFFFD]
        | d :: r' =>
            if in_range 0xDC00 d 0xDFFF
            then (0x10000 + 0x400 * Z.land c 0x3FF + Z.land d 0x3FF)
                 :: scalar_values r'
            else 0xFFFD :: scalar_values r
        end
  end.

(** The continuation bytes the encoder writes after the lead byte. *)
Fixpoint utf8_trail (cp : Z) (count : nat) : list Z :=
  match count with
  | O => []
  | S c =>
      Z.lor 0x80 (Z.land (Z.shiftr cp (6 * Z.of_nat c)) 0x3F) :: utf8_trail cp c
  end.

(** The handler of the UTF-8 encoder for one scalar value. *)
Definition utf8_encoder_handler (cp : Z) : list Z :=
  if in_range 0x00 cp 0x7F then [cp]
  else
    let '(count, offset) :=
      if in_range 0x80 cp 0x7FF then (1%nat, 0xC0)
      else if in_range 0x800 cp 0xFFFF then (2%nat, 0xE0)
      else (3%nat, 0xF0) in
    (Z.shiftr cp (6 * Z.of_nat count) + offset) :: utf8_trail cp count.

(** [new TextEncoder().encode(s)]. *)
Definition TextEncoder_encode (s : jsstring) : list Z :=
  flat_map utf8_encoder_handler (scalar_values s).

End JS.

Abbreviation Uint8Array := (list Z) (only parsing).
Abbreviation ArrayBuffer := (list Z) (only parsing).

Definition is_u8 (b : Z) : Prop := 0 <= b < 256.
Definition bytes_ok (a : list Z) : Prop := Forall is_u8 a.

(** ** [xorBuffer] *)

Definition xorBuffer (buffer : ArrayBuffer) (key : Uint8Array) : ArrayBuffer :=
  let input : Uint8Array := buffer in
  let output := JS.new_Uint8Array (length input) in
  let keyLength := length key in
  if Nat.eqb keyLength 0 then buffer
  else
    JS.for_loop (length input) 0
      (fun i out =>
         JS.store out i (Some (JS.bitxor (input !! i) (key !! (i mod keyLength)%nat))))
      output.


(** ** [hexToUint8Array] and [uint8ArrayToHex] *)

Definition hexToUint8Array (hex : JS.jsstring) : Uint8Array :=
  let cleanHex := JS.replace_non_hex hex in
  match JS.match_dot12 cleanHex with
  | None => JS.new_Uint8Array 0
  | Some matches => JS.Uint8Array_of (map (fun byte => JS.parseInt16 byte) matches)
  end.

Definition uint8ArrayToHex (array : Uint8Array) : JS.jsstring :=
  JS.join_empty (map (fun b => JS.padStart (JS.toString16 b) 2 48) array).

(** *** Reference description of the hex decoder

    The value of a hexadecimal digit of either case, and the bytes
    obtained by pairing a sequence of such values from the left; a value
    left over at the end stands alone. *)

Definition nibble (c : Z) : Z := default 0 (JS.digit_value c).

Fixpoint pair_nibbles (ns : list Z) : list Z :=
  match ns with
  | [] => []
  | [n] => [n]
  | hi :: lo :: r => (hi * 16 + lo) :: pair_nibbles r
  end.

(** The code units of the hexadecimal digit characters, and the map that
    puts the digits [a] to [f] in upper case. *)
Definition hex_chars : list Z :=
  [48; 49; 50; 51; 52; 53; 54; 55; 56; 57;
   65; 66; 67; 68; 69; 70; 97; 98; 99; 100; 101; 102].

Definition hex_upper (c : Z) : Z :=
  if (97 <=? c) && (c <=? 102) then c - 32 else c.

(** The lowercase hexadecimal digit characters [[0-9a-f]]. *)
Definition is_lower_hex_char (c : Z) : bool :=
  ((48 <=? c) && (c <=? 57)) || ((97 <=? c) && (c <=? 102)).

(** Every value a byte can take. *)
Definition u8_all : list Z := map Z.of_nat (seq 0 256).

(** The check that a byte is rendered as its two lowercase hex digits, high
    digit first. *)
Definition two_digits_of (b : Z) : bool :=
  match JS.padStart (JS.toString16 b) 2 48 with
  | [h; l] => is_lower_hex_char h && is_lower_hex_char l
              && JS.is_hex_char h && JS.is_hex_char l
              && (nibble h * 16 + nibble l =? b)
  | _ => false
  end.


(** ** [base64ToUint8Array] and [uint8ArrayToBase64] *)

Definition base64ToUint8Array (base64 : JS.jsstring) : Uint8Array :=
  match JS.atob base64 with
  | Some binary =>
      let bytes := JS.new_Uint8Array (length binary) in
      JS.for_loop (length binary) 0
        (fun i bytes => JS.store bytes i (JS.charCodeAt binary i))
        bytes
  | None => JS.new_Uint8Array 0
  end.

(** [None]: the exception of [btoa] leaves the function. *)
Definition uint8ArrayToBase64 (array : Uint8Array) : option JS.jsstring :=
  let len := length array in
  let binary :=
    JS.for_loop len 0
      (fun i binary => binary ++ [JS.fromCharCode (array !! i)])
      [] in
  JS.btoa binary.

(** *** Reference description of the base64 encoder

    The sextets the encoder writes for a byte sequence, and the padding
    that follows them. *)

Fixpoint b64_sextets (bytes : list Z) : list Z :=
  match bytes with
  | [] => []
  | [a] =>
      let n := Z.shiftl a 4 in [JS.sextet n 6; JS.sextet n 0]
  | [a; b] =>
      let n := Z.shiftl (Z.lor (Z.shiftl a 8) b) 2 in
      [JS.sextet n 12; JS.sextet n 6; JS.sextet n 0]
  | a :: b :: c :: r =>
      let n := Z.lor (Z.shiftl (Z.lor (Z.shiftl a 8) b) 8) c in
      JS.sextet n 18 :: JS.sextet n 12 :: JS.sextet n 6 :: JS.sextet n 0
        :: b64_sextets r
  end.

Fixpoint b64_padding (bytes : list Z) : list Z :=
  match bytes with
  | [] => []
  | [_] => [61; 61]
  | [_; _] => [61]
  | _ :: _ :: _ :: r => b64_padding r
  end.

Definition is_sextet (v : Z) : Prop := 0 <= v < 64.

(** Every value a sextet can take. *)
Definition sextet_all : list Z := map Z.of_nat (seq 0 64).

(** A character of the base64 alphabet, or the padding character. *)
Definition is_b64_output_char (c : Z) : bool :=
  match JS.b64_value c with Some _ => true | None => c =? 61 end.


(** ** [stringToUint8Array] and [uint8ArrayToString] *)

Definition stringToUint8Array (str : JS.jsstring) : Uint8Array :=
  JS.TextEncoder_encode str.

Definition uint8ArrayToString (array : Uint8Array) : JS.jsstring :=
  match JS.TextDecoder_decode array with
  | Some s => s
  | None => JS.lit "[Binary Content]"
  end.

(** *** Well-formed UTF-8

    The well-formed byte sequences of the Unicode standard (table 3-7),
    one row per definition; a byte sequence is valid UTF-8 when it is a
    concatenation of them. *)

Definition valid1 (b0 : Z) : bool := JS.in_range 0x00 b0 0x7F.

Definition valid2 (b0 b1 : Z) : bool :=
  JS.in_range 0xC2 b0 0xDF && JS.in_range 0x80 b1 0xBF.

Definition valid3 (b0 b1 b2 : Z) : bool :=
  ((b0 =? 0xE0) && JS.in_range 0xA0 b1 0xBF
   || JS.in_range 0xE1 b0 0xEC && JS.in_range 0x80 b1 0xBF
   || (b0 =? 0xED) && JS.in_range 0x80 b1 0x9F
   || JS.in_range 0xEE b0 0xEF && JS.in_range 0x80 b1 0xBF)
  && JS.in_range 0x80 b2 0xBF.

Definition valid4 (b0 b1 b2 b3 : Z) : bool :=
  ((b0 =? 0xF0) && JS.in_range 0x90 b1 0xBF
   || JS.in_range 0xF1 b0 0xF3 && JS.in_range 0x80 b1 0xBF
   || (b0 =? 0xF4) && JS.in_range 0x80 b1 0x8F)
  && JS.in_range 0x80 b2 0xBF && JS.in_range 0x80 b3 0xBF.

Fixpoint utf8_valid (bytes : list Z) : bool :=
  match bytes with
  | [] => true
  | b0 :: r0 =>
      if valid1 b0 then utf8_valid r0
      else
        match r0 with
        | [] => false
        | b1 :: r1 =>
            if valid2 b0 b1 then utf8_valid r1
            else
              match r1 with
              | [] => false
              | b2 :: r2 =>
                  if valid3 b0 b1 b2 then utf8_valid r2
                  else
                    match r2 with
                    | [] => false
                    | b3 :: r3 =>
                        if valid4 b0 b1 b2 b3 then utf8_valid r3 else false
                    end
              end
        end
  end.

(** Unicode scalar values: code points outside the surrogate range. *)
Definition is_scalar (cp : Z) : Prop :=
  0 <= cp <= 0x10FFFF /\ (cp < 0xD800 \/ 0xDFFF < cp).

(** The scalar value carried by a sequence of two, three or four bytes. *)
Definition scalar2 (b0 b1 : Z) : Z := (b0 - 0xC0) * 64 + (b1 - 0x80).
Definition scalar3 (b0 b1 b2 : Z) : Z :=
  ((b0 - 0xE0) * 64 + (b1 - 0x80)) * 64 + (b2 - 0x80).
Definition scalar4 (b0 b1 b2 b3 : Z) : Z :=
  (((b0 - 0xF0) * 64 + (b1 - 0x80)) * 64 + (b2 - 0x80)) * 64 + (b3 - 0x80).

(** The byte order mark in UTF-8. *)
Definition utf8_bom : list Z := [0xEF; 0xBB; 0xBF].


(** ** Definitions used to state further properties *)

(** The map that puts the hexadecimal digits [A] to [F] in lower case. *)
Definition hex_lower (c : Z) : Z :=
  if (65 <=? c) && (c <=? 70) then c + 32 else c.

(** The text [uint8ArrayToHex] writes for the bytes a hex string decodes
    to, given the digits that survive the stripping: the digits in lower
    case, with a [0] put in front of a last digit that has no partner. *)
Fixpoint hex_canonical (digits : list Z) : list Z :=
  match digits with
  | [] => []
  | [d] => [48; hex_lower d]
  | h :: l :: r => hex_lower h :: hex_lower l :: hex_canonical r
  end.

(** Code units, and the strings in which every surrogate is half of a
    pair (well-formed UTF-16). *)
Definition is_code_unit (c : Z) : Prop := 0 <= c <= 0xFFFF.

Fixpoint utf16_well_formed (s : list Z) : bool :=
  match s with
  | [] => true
  | c :: r =>
      if JS.in_range 0 c 0xD7FF || JS.in_range 0xE000 c 0xFFFF
      then utf16_well_formed r
      else if JS.in_range 0xD800 c 0xDBFF then
        match r with
        | d :: r' => JS.in_range 0xDC00 d 0xDFFF && utf16_well_formed r'
        | [] => false
        end
      else false
  end.

(** ** More of [utils/cryptoUtils.ts]: [generateRandomKey] *)

Module JSLib.

(** [a === b] on strings. *)
Fixpoint string_eqb (a b : list Z) : bool :=
  match a, b with
  | [], [] => true
  | x :: a', y :: b' => (x =? y) && string_eqb a' b'
  | _, _ => false
  end.

(** [s.endsWith(suffix)]. *)
Definition endsWith (s suffix : list Z) : bool :=
  (length suffix <=? length s)%nat
  && string_eqb (drop (length s - length suffix) s) suffix.

(** [s.slice(0, -n)]. *)
Definition slice_0_neg (s : list Z) (n : nat) : list Z :=
  take (length s - n) s.

(** [s.replace(/[^\x20-\x7E]/g, '?')]: every code unit outside the range
    becomes [?] (63). *)
Definition replace_non_printable (s : list Z) : list Z :=
  map (fun c => if JS.in_range 0x20 c 0x7E then c else 63) s.

(** [window.crypto.getRandomValues(a)]: every element of [a] is
    overwritten; the value written at index [i] is taken from the
    entropy source [random], which is not part of the program. *)
Definition getRandomValues (random : nat -> Z) (a : list Z) : list Z :=
  JS.for_loop (length a) 0 (fun i a => JS.store a i (Some (random i))) a.

(** [blob.slice(0, n)] of a file, as bytes. *)
Definition blob_slice_0 (bytes : list Z) (n : nat) : list Z := take n bytes.

End JSLib.

Definition generateRandomKey (random : nat -> Z) (length : nat) : Uint8Array :=
  let key := JS.new_Uint8Array length in
  JSLib.getRandomValues random key.

(** ** [components/KeyInput.tsx] *)

Inductive KeyMode : Type := mode_hex | mode_text | mode_base64.

Definition KeyMode_eqb (a b : KeyMode) : bool :=
  match a, b with
  | mode_hex, mode_hex | mode_text, mode_text | mode_base64, mode_base64 => true
  | _, _ => false
  end.

(** The props [keyValue] and [mode], which the handlers read and set. *)
Record KeyInputProps : Type := KeyInput_props {
  keyValue : list Z;
  mode : KeyMode
}.

(** The memo [keyBytes] (the same in [App.tsx]). *)
Definition keyBytes (keyValue : list Z) (mode : KeyMode) : Uint8Array :=
  if KeyMode_eqb mode mode_hex then hexToUint8Array keyValue
  else if KeyMode_eqb mode mode_base64 then base64ToUint8Array keyValue
  else stringToUint8Array keyValue.

(** [handleGenerate]; when [uint8ArrayToBase64] throws, no setter has been
    called and the props are as they were. *)
Definition handleGenerate (random : nat -> Z) (p : KeyInputProps) : KeyInputProps :=
  let newKey := generateRandomKey random 16 in
  if KeyMode_eqb (mode p) mode_hex
  then KeyInput_props (uint8ArrayToHex newKey) (mode p)
  else if KeyMode_eqb (mode p) mode_base64 then
    match uint8ArrayToBase64 newKey with
    | Some v => KeyInput_props v (mode p)
    | None => p
    end
  else
    KeyInput_props
      (JSLib.replace_non_printable (uint8ArrayToString newKey)) (mode p).

(** [handleModeSwitch]. *)
Definition handleModeSwitch (p : KeyInputProps) (newMode : KeyMode) : KeyInputProps :=
  if KeyMode_eqb newMode (mode p) then p
  else
    let kb := keyBytes (keyValue p) (mode p) in
    let newValue : option (list Z) :=
      if KeyMode_eqb newMode mode_hex then Some (uint8ArrayToHex kb)
      else if KeyMode_eqb newMode mode_base64 then uint8ArrayToBase64 kb
      else
        let str := uint8ArrayToString kb in
        Some (if JSLib.string_eqb str (JS.lit "[Binary Content]") then [] else str) in
    match newValue with
    | Some v => KeyInput_props v newMode
    | None => p
    end.

(** ** [App.tsx] *)

Inductive ProcessMode : Type := ENCRYPT | DECRYPT.

(** A selected file: its name and its bytes. *)
Record File : Type := Build_File {
  file_name : list Z;
  file_bytes : list Z
}.

(** The state of the component that [processFile] and the file reader
    callbacks read and set; [processedFile] stands for
    [processedFileUrl] and holds the bytes of the blob the URL points
    to. *)
Record AppState : Type := Build_AppState {
  file : option File;
  encryptionKey : list Z;
  keyMode : KeyMode;
  isProcessing : bool;
  processedFile : option (list Z);
  error : option (list Z);
  processMode : ProcessMode
}.

(** The hex header that [handleFileChange] hands to the analysis: the
    first 128 bytes of the file. *)
Definition hexHeader (selectedFile : File) : list Z :=
  let headerBlob := JSLib.blob_slice_0 (file_bytes selectedFile) 128 in
  uint8ArrayToHex headerBlob.

(** [processFile], up to the point where the read is started: the new
    state, and the file and key bytes the [onload] callback has captured
    when a read is started. *)
Definition processFile (st : AppState) : AppState * option (File * list Z) :=
  let kb := keyBytes (encryptionKey st) (keyMode st) in
  match file st with
  | Some f =>
      if Nat.eqb (length kb) 0
      then (Build_AppState (file st) (encryptionKey st) (keyMode st)
              (isProcessing st) (processedFile st)
              (Some (JS.lit "Please provide a valid key.")) (processMode st),
            None)
      else (Build_AppState (file st) (encryptionKey st) (keyMode st)
              true (processedFile st) None (processMode st),
            Some (f, kb))
  | None =>
      (Build_AppState (file st) (encryptionKey st) (keyMode st)
         (isProcessing st) (processedFile st)
         (Some (JS.lit "Please provide a valid key.")) (processMode st),
       None)
  end.

(** The [onload] callback of the reader [processFile] starts, with the
    key bytes it has captured and the bytes read. *)
Definition reader_onload (keyBytes arrayBuffer : list Z) (st : AppState) : AppState :=
  let resultBuffer := xorBuffer arrayBuffer keyBytes in
  Build_AppState (file st) (encryptionKey st) (keyMode st)
    false (Some resultBuffer) (error st) (processMode st).


(** The [download] attribute of the result link; a missing file is
    [undefined] in the template. *)
Definition downloadName (m : ProcessMode) (f : option File) : list Z :=
  match m with
  | ENCRYPT =>
      match f with
      | Some f => file_name f ++ JS.lit ".xor"
      | None => JS.lit "undefined.xor"
      end
  | DECRYPT =>
      match f with
      | Some f =>
          if JSLib.endsWith (file_name f) (JS.lit ".xor")
          then JSLib.slice_0_neg (file_name f) 4
          else JS.lit "decrypted_" ++ file_name f
      | None => JS.lit "decrypted_undefined"
      end
  end.

(** * Properties *)

(** ** Bytes and bitwise operations *)

Lemma ToInt32_u8 (x : Z) : is_u8 x -> JS.ToInt32 (Some x) = x.
Proof.
  unfold is_u8, JS.ToInt32. intros Hx.
  rewrite Z.mod_small; lia.
Qed.

Lemma lxor_u8 (a b : Z) : is_u8 a -> is_u8 b -> is_u8 (Z.lxor a b).
Proof.
  unfold is_u8. intros [Ha0 Ha] [Hb0 Hb].
  assert (H0 : 0 <= Z.lxor a b) by (apply Z.lxor_nonneg; lia).
  split; [exact H0|].
  destruct (Z.eq_dec (Z.lxor a b) 0) as [->|Hne]; [lia|].
  change 256 with (2 ^ 8). apply Z.log2_lt_pow2; [lia|].
  pose proof (Z.log2_lxor a b Ha0 Hb0) as Hl.
  assert (Z.log2 a < 8).
  { destruct (Z.eq_dec a 0) as [->|]; [reflexivity|].
    apply Z.log2_lt_pow2; lia. }
  assert (Z.log2 b < 8).
  { destruct (Z.eq_dec b 0) as [->|]; [reflexivity|].
    apply Z.log2_lt_pow2; lia. }
  lia.
Qed.

Lemma bitxor_u8 (a b : Z) :
  is_u8 a -> is_u8 b -> JS.ToUint8 (Some (JS.bitxor (Some a) (Some b))) = Z.lxor a b.
Proof.
  intros Ha Hb. unfold JS.bitxor, JS.ToUint8.
  rewrite !ToInt32_u8 by assumption.
  pose proof (lxor_u8 a b Ha Hb) as H. unfold is_u8 in H.
  apply Z.mod_small; lia.
Qed.

(** ** The indexed store loop *)

Section StoreLoop.
Variable f : nat -> option Z.

Let body := fun (i : nat) (out : list Z) => JS.store out i (f i).

Lemma store_loop_length (n i : nat) (out : list Z) :
  length (JS.for_loop n i body out) = length out.
Proof.
  revert i out. induction n as [|n IH]; intros i out; simpl; [reflexivity|].
  rewrite IH. unfold body, JS.store. apply length_insert.
Qed.

Lemma store_loop_lookup (n i : nat) (out : list Z) (j : nat) :
  (i + n <= length out)%nat ->
  JS.for_loop n i body out !! j =
    if decide (i <= j < i + n)%nat then Some (JS.ToUint8 (f j)) else out !! j.
Proof.
  revert i out. induction n as [|n IH]; intros i out Hlen; simpl.
  - case_decide; [lia|reflexivity].
  - rewrite IH by (unfold body, JS.store; rewrite length_insert; lia).
    unfold body, JS.store.
    destruct (decide (j = i)) as [->|Hne].
    + rewrite list_lookup_insert_eq by lia.
      repeat case_decide; try lia; reflexivity.
    + rewrite list_lookup_insert_ne by congruence.
      repeat case_decide; try lia; reflexivity.
Qed.
End StoreLoop.

(** ** The XOR transform *)

Lemma key_lookup_mod (k : list Z) (i : nat) :
  k <> [] -> exists kb, k !! (i mod length k)%nat = Some kb.
Proof.
  intros Hk. apply lookup_lt_is_Some_2.
  apply Nat.mod_upper_bound. destruct k; [congruence|simpl; lia].
Qed.

Lemma xorBuffer_length (b k : list Z) : length (xorBuffer b k) = length b.
Proof.
  unfold xorBuffer. destruct (Nat.eqb (length k) 0); [reflexivity|].
  rewrite store_loop_length. unfold JS.new_Uint8Array. apply length_replicate.
Qed.

Lemma xorBuffer_lookup (b k : list Z) (i : nat) (x kb : Z) :
  bytes_ok b -> bytes_ok k ->
  b !! i = Some x -> k !! (i mod length k)%nat = Some kb ->
  xorBuffer b k !! i = Some (Z.lxor x kb).
Proof.
  intros Hb Hk Hx Hkb. unfold xorBuffer.
  destruct (Nat.eqb_spec (length k) 0) as [E|E].
  { apply lookup_lt_Some in Hkb. lia. }
  pose proof (lookup_lt_Some _ _ _ Hx) as Hi.
  rewrite store_loop_lookup
    by (unfold JS.new_Uint8Array; rewrite length_replicate; lia).
  case_decide; [|lia].
  rewrite Hx, Hkb. f_equal. apply bitxor_u8.
  - exact (Forall_lookup_1 _ _ _ _ Hb Hx).
  - exact (Forall_lookup_1 _ _ _ _ Hk Hkb).
Qed.

Lemma xorBuffer_bytes_ok (b k : list Z) :
  bytes_ok b -> bytes_ok k -> bytes_ok (xorBuffer b k).
Proof.
  intros Hb Hk. destruct k as [|k0 k'] eqn:Ek; [exact Hb|]. rewrite <- Ek in *.
  apply Forall_lookup_2. intros i y Hy.
  pose proof (lookup_lt_Some _ _ _ Hy) as Hi. rewrite xorBuffer_length in Hi.
  destruct (lookup_lt_is_Some_2 b i Hi) as [x Hx].
  destruct (key_lookup_mod k i) as [kb Hkb]; [subst k; discriminate|].
  rewrite (xorBuffer_lookup b k i x kb Hb Hk Hx Hkb) in Hy.
  injection Hy as <-.
  apply lxor_u8; [exact (Forall_lookup_1 _ _ _ _ Hb Hx)|exact (Forall_lookup_1 _ _ _ _ Hk Hkb)].
Qed.

(** C2. For a non-empty key, the output of the transform has the length of
    the input, and its byte at every position [i] is
    [input[i] XOR key[i mod len(key)]]. *)
Theorem xorBuffer_spec (b k : list Z) :
  bytes_ok b -> bytes_ok k -> k <> [] ->
  length (xorBuffer b k) = length b /\
  forall (i : nat) (x : Z), b !! i = Some x ->
    exists kb, k !! (i mod length k)%nat = Some kb /\
               xorBuffer b k !! i = Some (Z.lxor x kb).
Proof.
  intros Hb Hk Hne. split; [apply xorBuffer_length|].
  intros i x Hx. destruct (key_lookup_mod k i Hne) as [kb Hkb].
  exists kb. split; [exact Hkb|]. by apply xorBuffer_lookup.
Qed.

Lemma xorBuffer_spec_witness :
  let b := [72; 101; 108; 108; 111] in
  let k := [42; 7] in
  length (xorBuffer b k) = length b /\
  forall (i : nat) (x : Z), b !! i = Some x ->
    exists kb, k !! (i mod length k)%nat = Some kb /\
               xorBuffer b k !! i = Some (Z.lxor x kb).
Proof.
  intros b k. apply (xorBuffer_spec b k).
  - unfold bytes_ok, is_u8. repeat constructor; lia.
  - unfold bytes_ok, is_u8. repeat constructor; lia.
  - discriminate.
Defined.

(** C1. Applying the transform twice with the same non-empty key gives the
    input back. *)
Theorem xorBuffer_involution (b k : list Z) :
  bytes_ok b -> bytes_ok k -> k <> [] ->
  xorBuffer (xorBuffer b k) k = b.
Proof.
  intros Hb Hk Hne.
  pose proof (xorBuffer_bytes_ok b k Hb Hk) as Hb'.
  apply list_eq. intros i.
  destruct (b !! i) as [x|] eqn:Hx.
  - destruct (key_lookup_mod k i Hne) as [kb Hkb].
    pose proof (xorBuffer_lookup b k i x kb Hb Hk Hx Hkb) as H1.
    rewrite (xorBuffer_lookup _ k i _ kb Hb' Hk H1 Hkb).
    f_equal. rewrite Z.lxor_assoc, Z.lxor_nilpotent. apply Z.lxor_0_r.
  - apply lookup_ge_None. rewrite !xorBuffer_length.
    by apply lookup_ge_None.
Qed.

Lemma xorBuffer_involution_witness :
  xorBuffer (xorBuffer [72; 101; 108; 108; 111] [42]) [42] = [72; 101; 108; 108; 111].
Proof.
  apply (xorBuffer_involution [72; 101; 108; 108; 111] [42]).
  - unfold bytes_ok, is_u8. repeat constructor; lia.
  - unfold bytes_ok, is_u8. repeat constructor; lia.
  - discriminate.
Defined.

(** The scenario of the specification: "Hello" under the key [0x2A]. *)
Example xorBuffer_hello :
  xorBuffer [0x48; 0x65; 0x6C; 0x6C; 0x6F] [0x2A] = [0x62; 0x4F; 0x46; 0x46; 0x45].
Proof. reflexivity. Qed.

(** C6. With an empty key the transform returns its input unchanged. *)
Theorem xorBuffer_empty_key (b : list Z) : xorBuffer b [] = b.
Proof. reflexivity. Qed.

(** ** Shifts and masks as arithmetic *)

Lemma land_mask (x : Z) (k : Z) :
  0 <= k -> Z.land x (2 ^ k - 1) = x mod 2 ^ k.
Proof.
  intros Hk. rewrite <- Z.land_ones by exact Hk.
  rewrite Z.ones_equiv. reflexivity.
Qed.

Lemma land_3 (x : Z) : Z.land x 3 = x mod 4.
Proof. exact (land_mask x 2 ltac:(lia)). Qed.
Lemma land_7 (x : Z) : Z.land x 7 = x mod 8.
Proof. exact (land_mask x 3 ltac:(lia)). Qed.
Lemma land_15 (x : Z) : Z.land x 15 = x mod 16.
Proof. exact (land_mask x 4 ltac:(lia)). Qed.
Lemma land_31 (x : Z) : Z.land x 31 = x mod 32.
Proof. exact (land_mask x 5 ltac:(lia)). Qed.
Lemma land_63 (x : Z) : Z.land x 63 = x mod 64.
Proof. exact (land_mask x 6 ltac:(lia)). Qed.
Lemma land_255 (x : Z) : Z.land x 255 = x mod 256.
Proof. exact (land_mask x 8 ltac:(lia)). Qed.
Lemma land_1023 (x : Z) : Z.land x 1023 = x mod 1024.
Proof. exact (land_mask x 10 ltac:(lia)). Qed.

(** Or-ing into the low bits freed by a left shift is an addition. *)
Lemma lor_shiftl_add (a b k : Z) :
  0 <= k -> 0 <= b < 2 ^ k -> Z.lor (Z.shiftl a k) b = a * 2 ^ k + b.
Proof.
  intros Hk Hb.
  assert (Hdisj : Z.land (Z.shiftl a k) b = 0).
  { apply Z.bits_inj'. intros i Hi.
    rewrite Z.land_spec, Z.bits_0.
    destruct (Z.lt_ge_cases i k) as [Hlt|Hge].
    - rewrite Z.shiftl_spec_low by exact Hlt. reflexivity.
    - assert (Hbit : Z.testbit b i = false).
      { destruct (Z.eq_dec b 0) as [->|Hne]; [apply Z.bits_0|].
        apply Z.bits_above_log2; [lia|].
        assert (Z.log2 b < k) by (apply Z.log2_lt_pow2; lia). lia. }
      rewrite Hbit. apply andb_false_r. }
  rewrite <- Z.lxor_lor by exact Hdisj.
  rewrite <- Z.add_nocarry_lxor by exact Hdisj.
  rewrite Z.shiftl_mul_pow2 by exact Hk. reflexivity.
Qed.

Lemma shiftr_div (x k : Z) : 0 <= k -> Z.shiftr x k = x / 2 ^ k.
Proof. intros Hk. apply Z.shiftr_div_pow2. exact Hk. Qed.

Lemma shiftl_mul (x k : Z) : 0 <= k -> Z.shiftl x k = x * 2 ^ k.
Proof. intros Hk. apply Z.shiftl_mul_pow2. exact Hk. Qed.

Lemma sextet_arith (n k : Z) : 0 <= k -> JS.sextet n k = (n / 2 ^ k) mod 64.
Proof. intros Hk. unfold JS.sextet. rewrite land_63, shiftr_div by exact Hk. reflexivity. Qed.

Lemma octet_arith (n k : Z) : 0 <= k -> JS.octet n k = (n / 2 ^ k) mod 256.
Proof. intros Hk. unfold JS.octet. rewrite land_255, shiftr_div by exact Hk. reflexivity. Qed.

Lemma sextet_range (n k : Z) : 0 <= k -> 0 <= JS.sextet n k < 64.
Proof. intros Hk. rewrite sextet_arith by exact Hk. apply Z.mod_pos_bound. lia. Qed.

(** ** The hex codec *)

Lemma is_hex_char_In (c : Z) : JS.is_hex_char c = true -> In c hex_chars.
Proof.
  unfold JS.is_hex_char. rewrite !orb_true_iff, !andb_true_iff, !Z.leb_le.
  intros H. simpl. lia.
Qed.

Lemma hex_chars_all (P : Z -> Prop) :
  Forall P hex_chars -> forall c, JS.is_hex_char c = true -> P c.
Proof.
  intros HP c Hc. rewrite Forall_forall in HP. apply HP.
  apply list_elem_of_In. by apply is_hex_char_In.
Qed.

Ltac check_each :=
  repeat (constructor; [vm_compute; intuition congruence|]);
  constructor.

Lemma hex_not_line_terminator (c : Z) :
  JS.is_hex_char c = true -> JS.is_line_terminator c = false.
Proof. revert c. apply hex_chars_all. check_each. Qed.

Lemma nibble_range (c : Z) : JS.is_hex_char c = true -> 0 <= nibble c <= 15.
Proof. revert c. apply hex_chars_all. check_each. Qed.

Lemma parseInt16_one (c : Z) :
  JS.is_hex_char c = true -> JS.parseInt16 [c] = Some (nibble c).
Proof. revert c. apply hex_chars_all. check_each. Qed.

Lemma parseInt16_two (h l : Z) :
  JS.is_hex_char h = true -> JS.is_hex_char l = true ->
  JS.parseInt16 [h; l] = Some (nibble h * 16 + nibble l).
Proof.
  intros Hh Hl. revert l Hl. revert h Hh.
  apply (hex_chars_all (fun h => forall l, JS.is_hex_char l = true ->
            JS.parseInt16 [h; l] = Some (nibble h * 16 + nibble l))).
  repeat (constructor; [apply hex_chars_all; check_each|]).
  constructor.
Qed.

Lemma replace_non_hex_all (s : list Z) :
  Forall (fun c => JS.is_hex_char c = true) (JS.replace_non_hex s).
Proof.
  unfold JS.replace_non_hex. induction s as [|c s IH]; simpl; [constructor|].
  destruct (JS.is_hex_char c) eqn:E; [constructor|]; assumption.
Qed.

Lemma replace_non_hex_id (s : list Z) :
  Forall (fun c => JS.is_hex_char c = true) s -> JS.replace_non_hex s = s.
Proof.
  unfold JS.replace_non_hex. induction 1 as [|c s Hc _ IH]; simpl; [reflexivity|].
  rewrite Hc, IH. reflexivity.
Qed.

(** Lists taken two elements at a time. *)
Lemma list_pair_ind {A : Type} (P : list A -> Prop) :
  P [] -> (forall x, P [x]) -> (forall x y l, P l -> P (x :: y :: l)) ->
  forall l, P l.
Proof.
  intros H0 H1 H2 l.
  assert (H : P l /\ forall x, P (x :: l)); [|exact (proj1 H)].
  induction l as [|a l [IH1 IH2]]; split; auto.
Qed.

(** The bytes decoded from a string that holds hex digits only. *)
Lemma decode_clean (l : list Z) :
  Forall (fun c => JS.is_hex_char c = true) l ->
  JS.Uint8Array_of (map (fun byte => JS.parseInt16 byte) (JS.dot12_matches l))
  = pair_nibbles (map nibble l).
Proof.
  induction l as [| x | x y l IH] using list_pair_ind; intros Hl.
  - reflexivity.
  - apply Forall_cons in Hl as [Hx _]. simpl.
    rewrite (hex_not_line_terminator x Hx). simpl.
    rewrite (parseInt16_one x Hx). simpl.
    pose proof (nibble_range x Hx). rewrite Z.mod_small by lia. reflexivity.
  - apply Forall_cons in Hl as [Hx Hl]. apply Forall_cons in Hl as [Hy Hl].
    cbn [JS.dot12_matches].
    rewrite (hex_not_line_terminator x Hx), (hex_not_line_terminator y Hy).
    cbn [map JS.Uint8Array_of pair_nibbles]. fold (JS.Uint8Array_of).
    rewrite (parseInt16_two x y Hx Hy). f_equal.
    + pose proof (nibble_range x Hx). pose proof (nibble_range y Hy).
      simpl. apply Z.mod_small. lia.
    + apply IH, Hl.
Qed.

(** The decoder is the pairing of the digit values of the characters that
    survive the stripping. *)
Lemma hexToUint8Array_nibbles (s : list Z) :
  hexToUint8Array s = pair_nibbles (map nibble (JS.replace_non_hex s)).
Proof.
  rewrite <- decode_clean by apply replace_non_hex_all.
  unfold hexToUint8Array, JS.match_dot12.
  destruct (JS.dot12_matches (JS.replace_non_hex s)); reflexivity.
Qed.

Lemma u8_all_forall (P : Z -> Prop) :
  Forall P u8_all -> forall b, is_u8 b -> P b.
Proof.
  intros HP b [Hb0 Hb]. rewrite Forall_forall in HP. apply HP.
  apply list_elem_of_In. unfold u8_all. apply in_map_iff.
  exists (Z.to_nat b). split; [lia|]. apply in_seq. lia.
Qed.

Lemma two_digits_of_u8 (b : Z) : is_u8 b -> two_digits_of b = true.
Proof.
  revert b. apply u8_all_forall.
  apply Forall_forall. intros b Hb. apply list_elem_of_In in Hb.
  apply (proj1 (forallb_forall two_digits_of u8_all)); [|exact Hb].
  vm_compute. reflexivity.
Qed.

Lemma byte_hex_digits (b : Z) :
  is_u8 b ->
  exists h l, JS.padStart (JS.toString16 b) 2 48 = [h; l] /\
    is_lower_hex_char h = true /\ is_lower_hex_char l = true /\
    JS.is_hex_char h = true /\ JS.is_hex_char l = true /\
    nibble h * 16 + nibble l = b.
Proof.
  intros Hb. pose proof (two_digits_of_u8 b Hb) as H. unfold two_digits_of in H.
  destruct (JS.padStart (JS.toString16 b) 2 48) as [|h [|l [|? ?]]]; try discriminate.
  rewrite !andb_true_iff, Z.eqb_eq in H. exists h, l. intuition.
Qed.

Lemma uint8ArrayToHex_cons (b : Z) (bs : list Z) :
  uint8ArrayToHex (b :: bs)
  = JS.padStart (JS.toString16 b) 2 48 ++ uint8ArrayToHex bs.
Proof. reflexivity. Qed.

(** C3. Decoding the hex rendering of a byte sequence gives the sequence
    back; the rendering holds exactly two lowercase hex digits per byte and
    nothing else. *)
Theorem hex_round_trip (b : list Z) :
  bytes_ok b ->
  hexToUint8Array (uint8ArrayToHex b) = b /\
  length (uint8ArrayToHex b) = (2 * length b)%nat /\
  Forall (fun c => is_lower_hex_char c = true) (uint8ArrayToHex b).
Proof.
  induction 1 as [|x bs Hx Hbs (IH1 & IH2 & IH3)].
  - repeat split. constructor.
  - destruct (byte_hex_digits x Hx) as (h & l & E & Hh & Hl & Hh' & Hl' & Hv).
    rewrite uint8ArrayToHex_cons, E. repeat split.
    + rewrite hexToUint8Array_nibbles. simpl.
      unfold JS.replace_non_hex in *. simpl. rewrite Hh', Hl'. simpl.
      rewrite Hv. f_equal. rewrite hexToUint8Array_nibbles in IH1. exact IH1.
    + simpl. rewrite IH2. lia.
    + simpl. repeat constructor; assumption.
Qed.

Lemma hex_round_trip_witness :
  let b := [0; 7; 16; 171; 255] in
  hexToUint8Array (uint8ArrayToHex b) = b /\
  length (uint8ArrayToHex b) = (2 * length b)%nat /\
  Forall (fun c => is_lower_hex_char c = true) (uint8ArrayToHex b).
Proof.
  intros b. apply (hex_round_trip b).
  unfold bytes_ok, is_u8. repeat constructor; lia.
Defined.

(** *** Pairing of digit values *)

Lemma pair_nibbles_length (l : list Z) :
  length (pair_nibbles l) = ((length l + 1) / 2)%nat.
Proof.
  induction l as [| x | x y l IH] using list_pair_ind; try reflexivity.
  cbn [pair_nibbles length]. rewrite IH.
  replace (S (S (length l)) + 1)%nat with (length l + 1 + 1 * 2)%nat by lia.
  rewrite Nat.div_add by lia. lia.
Qed.

Lemma pair_nibbles_app (l1 l2 : list Z) :
  Nat.even (length l1) = true ->
  pair_nibbles (l1 ++ l2) = pair_nibbles l1 ++ pair_nibbles l2.
Proof.
  induction l1 as [| x | x y l1 IH] using list_pair_ind; intros He.
  - reflexivity.
  - discriminate.
  - cbn [app pair_nibbles]. rewrite IH by exact He. reflexivity.
Qed.

Lemma odd_length_snoc {A : Type} (l : list A) :
  Nat.odd (length l) = true ->
  exists init d, l = init ++ [d] /\ Nat.even (length init) = true.
Proof.
  induction l as [| x | x y l IH] using list_pair_ind; intros Ho.
  - discriminate.
  - exists [], x. split; reflexivity.
  - destruct (IH Ho) as (init & d & -> & He).
    exists (x :: y :: init), d. split; [reflexivity|exact He].
Qed.

Lemma replace_non_hex_app (s t : list Z) :
  JS.replace_non_hex (s ++ t) = JS.replace_non_hex s ++ JS.replace_non_hex t.
Proof. unfold JS.replace_non_hex. apply List.filter_app. Qed.

Lemma replace_non_hex_idemp (s : list Z) :
  JS.replace_non_hex (JS.replace_non_hex s) = JS.replace_non_hex s.
Proof. apply replace_non_hex_id, replace_non_hex_all. Qed.

Lemma hex_trailing_nibble_split (s : list Z) :
  Nat.odd (length (JS.replace_non_hex s)) = true ->
  exists init d,
    JS.replace_non_hex s = init ++ [d] /\ JS.is_hex_char d = true /\
    hexToUint8Array s = hexToUint8Array init ++ [nibble d].
Proof.
  intros Ho. destruct (odd_length_snoc _ Ho) as (init & d & E & He).
  exists init, d. split; [exact E|].
  pose proof (replace_non_hex_all s) as Hall. rewrite E in Hall.
  apply Forall_app in Hall as [Hi Hd]. apply Forall_cons in Hd as [Hd _].
  split; [exact Hd|].
  rewrite !hexToUint8Array_nibbles, E, (replace_non_hex_id init Hi), map_app.
  rewrite pair_nibbles_app by (rewrite length_map; exact He). reflexivity.
Qed.

(** C4 (as amended). When an odd number of hex digits survives the
    stripping, the last digit is not dropped: the decoder returns the bytes
    of the digits before it, followed by one more byte whose value is that
    digit. *)
Theorem hex_trailing_nibble_kept (s : list Z) :
  Nat.odd (length (JS.replace_non_hex s)) = true ->
  exists init d,
    JS.replace_non_hex s = init ++ [d] /\
    hexToUint8Array s = hexToUint8Array init ++ [nibble d].
Proof.
  intros Ho. destruct (hex_trailing_nibble_split s Ho) as (init & d & E & _ & H).
  exists init, d. split; assumption.
Qed.

Lemma hex_trailing_nibble_kept_witness :
  exists init d,
    JS.replace_non_hex (JS.lit "a-b:c") = init ++ [d] /\
    hexToUint8Array (JS.lit "a-b:c") = hexToUint8Array init ++ [nibble d].
Proof. apply (hex_trailing_nibble_kept (JS.lit "a-b:c")). reflexivity. Defined.

(** C4 as the specification words it fails on ["abc"]: three digits
    survive the stripping, and the result is not the decoding of the
    first two alone, it is [0xAB, 0x0C]. *)
Lemma hex_trailing_nibble_dropped_fails :
  Nat.odd (length (JS.replace_non_hex (JS.lit "abc"))) = true /\
  hexToUint8Array (JS.lit "abc") = [171; 12] /\
  hexToUint8Array (JS.lit "abc")
    <> hexToUint8Array (removelast (JS.replace_non_hex (JS.lit "abc"))).
Proof. repeat split. vm_compute. discriminate. Qed.

Lemma hex_upper_is_hex (c : Z) :
  JS.is_hex_char (hex_upper c) = JS.is_hex_char c.
Proof.
  unfold hex_upper. destruct ((97 <=? c) && (c <=? 102)) eqn:E; [|reflexivity].
  apply andb_true_iff in E as [H1 H2]. apply Z.leb_le in H1, H2.
  assert (H : c = 97 \/ c = 98 \/ c = 99 \/ c = 100 \/ c = 101 \/ c = 102)
    by lia.
  destruct H as [->|[->|[->|[->|[->| ->]]]]]; reflexivity.
Qed.

Lemma hex_upper_nibble (c : Z) :
  JS.is_hex_char c = true -> nibble (hex_upper c) = nibble c.
Proof. revert c. apply hex_chars_all. check_each. Qed.

Lemma replace_non_hex_upper (s : list Z) :
  map nibble (JS.replace_non_hex (map hex_upper s))
  = map nibble (JS.replace_non_hex s).
Proof.
  unfold JS.replace_non_hex. induction s as [|c s IH]; [reflexivity|].
  simpl. rewrite hex_upper_is_hex.
  destruct (JS.is_hex_char c) eqn:E; [|exact IH].
  simpl. rewrite IH, (hex_upper_nibble c E). reflexivity.
Qed.

(** C9. The decoder works on what is left after every character outside
    [[0-9a-fA-F]] has been removed: its result is the pairing of the digit
    values of the characters that are left, so it is the same for the
    stripped string, and the same for digits of either case;
    ["de:ad-BE#EF"] decodes to [DE AD BE EF], and a string without any hex
    digit decodes to the empty sequence. *)
Theorem hex_decode_strips (s : list Z) :
  hexToUint8Array s = pair_nibbles (map nibble (JS.replace_non_hex s)) /\
  hexToUint8Array s = hexToUint8Array (JS.replace_non_hex s) /\
  hexToUint8Array (map hex_upper s) = hexToUint8Array s /\
  hexToUint8Array (JS.lit "de:ad-BE#EF") = [0xDE; 0xAD; 0xBE; 0xEF] /\
  (Forall (fun c => JS.is_hex_char c = false) s -> hexToUint8Array s = []).
Proof.
  split; [apply hexToUint8Array_nibbles|]. repeat split.
  - rewrite !hexToUint8Array_nibbles, replace_non_hex_idemp. reflexivity.
  - rewrite !hexToUint8Array_nibbles, replace_non_hex_upper. reflexivity.
  - intros Hs. rewrite hexToUint8Array_nibbles.
    replace (JS.replace_non_hex s) with (@nil Z); [reflexivity|].
    unfold JS.replace_non_hex. induction Hs as [|c s Hc _ IH]; [reflexivity|].
    simpl. rewrite Hc. exact IH.
Qed.

Lemma hex_decode_strips_witness :
  hexToUint8Array (JS.lit "xyz: ?") = [].
Proof.
  apply (proj2 (proj2 (proj2 (proj2 (hex_decode_strips (JS.lit "xyz: ?")))))).
  repeat constructor.
Defined.

(** C10. The decoder returns as many bytes as the number of surviving
    digits divided by two, rounded up; when that number is [2m+1] it
    returns [m+1] bytes, and the last of them is the value of the last
    digit, between 0 and 15. *)
Theorem hex_decode_length (s : list Z) :
  length (hexToUint8Array s) = ((length (JS.replace_non_hex s) + 1) / 2)%nat /\
  forall m : nat, length (JS.replace_non_hex s) = (2 * m + 1)%nat ->
    length (hexToUint8Array s) = (m + 1)%nat /\
    exists d v, last (JS.replace_non_hex s) = Some d /\
      JS.digit_value d = Some v /\ 0 <= v <= 15 /\
      last (hexToUint8Array s) = Some v.
Proof.
  assert (Hlen : length (hexToUint8Array s)
                 = ((length (JS.replace_non_hex s) + 1) / 2)%nat).
  { rewrite hexToUint8Array_nibbles, pair_nibbles_length, length_map.
    reflexivity. }
  split; [exact Hlen|]. intros m Hm. split.
  { rewrite Hlen, Hm. replace (2 * m + 1 + 1)%nat with ((m + 1) * 2)%nat by lia.
    apply Nat.div_mul. lia. }
  assert (Ho : Nat.odd (length (JS.replace_non_hex s)) = true).
  { rewrite Hm, Nat.add_1_r, Nat.odd_succ. apply Nat.even_spec. by exists m. }
  destruct (hex_trailing_nibble_split s Ho) as (init & d & E & Hd & Hout).
  exists d, (nibble d). rewrite E, Hout, !last_snoc. repeat split.
  - unfold nibble, JS.digit_value, JS.is_hex_char in *.
    repeat match goal with |- context [if ?c then _ else _] =>
      destruct c eqn:? end; try reflexivity.
    rewrite !orb_true_iff, !andb_true_iff, !andb_false_iff in *. lia.
  - apply (nibble_range d Hd).
  - apply (nibble_range d Hd).
Qed.

Lemma hex_decode_length_witness :
  length (hexToUint8Array (JS.lit "abc")) = (1 + 1)%nat /\
  exists d v, last (JS.replace_non_hex (JS.lit "abc")) = Some d /\
    JS.digit_value d = Some v /\ 0 <= v <= 15 /\
    last (hexToUint8Array (JS.lit "abc")) = Some v.
Proof.
  apply (proj2 (hex_decode_length (JS.lit "abc")) 1%nat). reflexivity.
Defined.

(** ** The base64 codec *)

Lemma list_triple_ind {A : Type} (P : list A -> Prop) :
  P [] -> (forall x, P [x]) -> (forall x y, P [x; y]) ->
  (forall x y z l, P l -> P (x :: y :: z :: l)) ->
  forall l, P l.
Proof.
  intros H0 H1 H2 H3 l.
  assert (H : P l /\ (forall x, P (x :: l)) /\ forall x y, P (x :: y :: l));
    [|exact (proj1 H)].
  induction l as [|a l (IH1 & IH2 & IH3)]; repeat split; auto.
Qed.

Lemma sextet_all_forall (P : Z -> Prop) :
  Forall P sextet_all -> forall v, is_sextet v -> P v.
Proof.
  intros HP v [Hv0 Hv]. rewrite Forall_forall in HP. apply HP.
  apply list_elem_of_In. unfold sextet_all. apply in_map_iff.
  exists (Z.to_nat v). split; [lia|]. apply in_seq. lia.
Qed.

Lemma b64_value_char (v : Z) :
  is_sextet v -> JS.b64_value (JS.b64_char v) = Some v.
Proof. revert v. apply sextet_all_forall. check_each. Qed.

Lemma b64_char_not_pad (v : Z) : is_sextet v -> (JS.b64_char v =? 61) = false.
Proof. revert v. apply sextet_all_forall. check_each. Qed.

Lemma b64_char_not_space (v : Z) :
  is_sextet v -> JS.is_ascii_whitespace (JS.b64_char v) = false.
Proof. revert v. apply sextet_all_forall. check_each. Qed.

Lemma b64_char_output (v : Z) :
  is_sextet v -> is_b64_output_char (JS.b64_char v) = true.
Proof. revert v. apply sextet_all_forall. check_each. Qed.

Lemma b64_encode_split (bytes : list Z) :
  JS.b64_encode bytes = map JS.b64_char (b64_sextets bytes) ++ b64_padding bytes.
Proof.
  induction bytes as [| a | a b | a b c r IH] using list_triple_ind;
    try reflexivity.
  cbn [JS.b64_encode b64_sextets b64_padding map app]. rewrite IH. reflexivity.
Qed.

Lemma b64_sextets_range (bytes : list Z) : Forall is_sextet (b64_sextets bytes).
Proof.
  induction bytes as [| a | a b | a b c r IH] using list_triple_ind;
    cbn [b64_sextets];
    repeat (constructor; [apply sextet_range; lia|]); try constructor.
  exact IH.
Qed.

Lemma b64_values_chars (vs : list Z) :
  Forall is_sextet vs -> JS.b64_values (map JS.b64_char vs) = Some vs.
Proof.
  induction 1 as [|v vs Hv _ IH]; [reflexivity|].
  simpl. rewrite (b64_value_char v Hv), IH. reflexivity.
Qed.

Lemma filter_space_chars (vs : list Z) :
  Forall is_sextet vs ->
  List.filter (fun c => negb (JS.is_ascii_whitespace c)) (map JS.b64_char vs)
  = map JS.b64_char vs.
Proof.
  induction 1 as [|v vs Hv _ IH]; [reflexivity|].
  simpl. rewrite (b64_char_not_space v Hv), IH. reflexivity.
Qed.

Ltac euclid := Z.to_euclidean_division_equations; lia.

(** Four sextets read back into the buffer give the 24-bit group they were
    cut from. *)
Lemma sextets_rebuild (n : Z) :
  0 <= n < 2 ^ 24 ->
  Z.lor (Z.shiftl (Z.lor (Z.shiftl (Z.lor (Z.shiftl
      (Z.lor (Z.shiftl 0 6) (JS.sextet n 18)) 6) (JS.sextet n 12)) 6)
      (JS.sextet n 6)) 6) (JS.sextet n 0) = n.
Proof.
  intros Hn.
  rewrite !lor_shiftl_add by (try apply sextet_range; lia).
  rewrite !sextet_arith by lia.
  change (2 ^ 18) with 262144. change (2 ^ 12) with 4096.
  change (2 ^ 6) with 64. change (2 ^ 0) with 1. change (2 ^ 24) with 16777216 in Hn.
  euclid.
Qed.

Lemma group24 (a b c : Z) :
  is_u8 a -> is_u8 b -> is_u8 c ->
  Z.lor (Z.shiftl (Z.lor (Z.shiftl a 8) b) 8) c = a * 65536 + b * 256 + c.
Proof.
  unfold is_u8. intros Ha Hb Hc.
  rewrite !lor_shiftl_add by lia. change (2 ^ 8) with 256. lia.
Qed.

Lemma drain_group (a b c : Z) (vs : list Z) :
  is_u8 a -> is_u8 b -> is_u8 c ->
  let n := Z.lor (Z.shiftl (Z.lor (Z.shiftl a 8) b) 8) c in
  JS.b64_drain
    (JS.sextet n 18 :: JS.sextet n 12 :: JS.sextet n 6 :: JS.sextet n 0 :: vs) 0 0
  = a :: b :: c :: JS.b64_drain vs 0 0.
Proof.
  intros Ha Hb Hc n.
  assert (Hn : n = a * 65536 + b * 256 + c) by (apply group24; assumption).
  unfold is_u8 in *.
  cbn [JS.b64_drain Nat.eqb].
  rewrite sextets_rebuild by (change (2 ^ 24) with 16777216; lia).
  rewrite !octet_arith by lia. rewrite Hn.
  change (2 ^ 16) with 65536. change (2 ^ 8) with 256. change (2 ^ 0) with 1.
  f_equal; [|f_equal; [|f_equal]]; euclid.
Qed.

Lemma drain_last_one (a : Z) :
  is_u8 a ->
  let n := Z.shiftl a 4 in
  JS.b64_drain [JS.sextet n 6; JS.sextet n 0] 0 0 = [a].
Proof.
  intros Ha n. unfold is_u8 in Ha.
  cbn [JS.b64_drain Nat.eqb].
  rewrite !lor_shiftl_add by (try apply sextet_range; lia).
  rewrite !sextet_arith, octet_arith, shiftr_div by lia.
  unfold n. rewrite shiftl_mul by lia.
  change (2 ^ 6) with 64. change (2 ^ 4) with 16. change (2 ^ 0) with 1.
  f_equal. euclid.
Qed.

Lemma drain_last_two (a b : Z) :
  is_u8 a -> is_u8 b ->
  let n := Z.shiftl (Z.lor (Z.shiftl a 8) b) 2 in
  JS.b64_drain [JS.sextet n 12; JS.sextet n 6; JS.sextet n 0] 0 0 = [a; b].
Proof.
  intros Ha Hb n. unfold is_u8 in Ha, Hb.
  cbn [JS.b64_drain Nat.eqb].
  rewrite !lor_shiftl_add by (try apply sextet_range; lia).
  rewrite !sextet_arith, !octet_arith, !shiftr_div by lia.
  unfold n. rewrite shiftl_mul, lor_shiftl_add by lia.
  change (2 ^ 12) with 4096. change (2 ^ 8) with 256.
  change (2 ^ 6) with 64. change (2 ^ 2) with 4. change (2 ^ 0) with 1.
  f_equal; [|f_equal]; euclid.
Qed.

Lemma drain_sextets (bytes : list Z) :
  bytes_ok bytes -> JS.b64_drain (b64_sextets bytes) 0 0 = bytes.
Proof.
  induction bytes as [| a | a b | a b c r IH] using list_triple_ind; intros Hok.
  - reflexivity.
  - apply Forall_cons in Hok as [Ha _]. by apply drain_last_one.
  - apply Forall_cons in Hok as [Ha Hok]. apply Forall_cons in Hok as [Hb _].
    by apply drain_last_two.
  - apply Forall_cons in Hok as [Ha Hok]. apply Forall_cons in Hok as [Hb Hok].
    apply Forall_cons in Hok as [Hc Hok].
    cbn [b64_sextets]. rewrite drain_group by assumption.
    rewrite IH by exact Hok. reflexivity.
Qed.

Lemma b64_padding_cases (bytes : list Z) :
  b64_padding bytes = [] \/ b64_padding bytes = [61] \/ b64_padding bytes = [61; 61].
Proof.
  induction bytes as [| a | a b | a b c r IH] using list_triple_ind; simpl; auto.
Qed.

Lemma b64_encode_length (bytes : list Z) :
  length (JS.b64_encode bytes) = (4 * ((length bytes + 2) / 3))%nat.
Proof.
  induction bytes as [| a | a b | a b c r IH] using list_triple_ind;
    try reflexivity.
  cbn [JS.b64_encode length]. rewrite IH.
  replace (S (S (S (length r))) + 2)%nat with (length r + 2 + 1 * 3)%nat by lia.
  rewrite Nat.div_add by lia. lia.
Qed.

Lemma b64_sextets_length_mod (bytes : list Z) :
  Nat.eqb (length (b64_sextets bytes) mod 4) 1 = false.
Proof.
  induction bytes as [| a | a b | a b c r IH] using list_triple_ind;
    try reflexivity.
  cbn [b64_sextets length].
  replace (S (S (S (S (length (b64_sextets r))))))
    with (length (b64_sextets r) + 1 * 4)%nat by lia.
  rewrite Nat.Div0.mod_add. exact IH.
Qed.

Lemma rev_chars_head (vs : list Z) :
  Forall is_sextet vs -> vs <> [] ->
  exists c r, rev (map JS.b64_char vs) = c :: r /\ (c =? 61) = false.
Proof.
  intros Hvs Hne. destruct vs as [|v vs'] using rev_ind; [congruence|].
  apply Forall_app in Hvs as [_ Hv]. apply Forall_cons in Hv as [Hv _].
  rewrite map_app, rev_app_distr. simpl.
  eexists _, _. split; [reflexivity|]. by apply b64_char_not_pad.
Qed.

Lemma strip_padding_chars (vs pad : list Z) :
  Forall is_sextet vs ->
  (length (map JS.b64_char vs ++ pad) mod 4 = 0)%nat ->
  pad = [] \/ pad = [61] \/ pad = [61; 61] ->
  JS.strip_padding (map JS.b64_char vs ++ pad) = map JS.b64_char vs.
Proof.
  intros Hvs Hlen Hpad. unfold JS.strip_padding. rewrite Hlen.
  cbn [Nat.eqb]. rewrite rev_app_distr.
  destruct Hpad as [->|[->| ->]].
  - cbn [rev app]. rewrite app_nil_r. destruct vs as [|v vs'] eqn:E; [reflexivity|].
    rewrite <- E in *.
    destruct (rev_chars_head vs Hvs) as (c & r & -> & Hc); [subst; discriminate|].
    destruct r; rewrite Hc; reflexivity.
  - destruct vs as [|v vs'] eqn:E; [discriminate|]. rewrite <- E in *.
    destruct (rev_chars_head vs Hvs) as (c & r & Er & Hc); [subst; discriminate|].
    change (rev [61]) with [61]. rewrite Er. cbn [app]. rewrite Hc.
    change (61 =? 61) with true. cbn [andb].
    rewrite <- Er. apply rev_involutive.
  - change (rev [61; 61]) with [61; 61]. cbn [app].
    change (61 =? 61) with true. cbn [andb]. apply rev_involutive.
Qed.

Lemma filter_space_encode (bytes : list Z) :
  List.filter (fun c => negb (JS.is_ascii_whitespace c)) (JS.b64_encode bytes)
  = JS.b64_encode bytes.
Proof.
  rewrite b64_encode_split, List.filter_app.
  rewrite filter_space_chars by apply b64_sextets_range. f_equal.
  destruct (b64_padding_cases bytes) as [->|[->| ->]]; reflexivity.
Qed.

(** [atob] undoes the encoding that [btoa] applies. *)
Lemma atob_b64_encode (bytes : list Z) :
  bytes_ok bytes -> JS.atob (JS.b64_encode bytes) = Some bytes.
Proof.
  intros Hok. unfold JS.atob. rewrite filter_space_encode.
  assert (Hlen : (length (JS.b64_encode bytes) mod 4 = 0)%nat).
  { rewrite b64_encode_length, Nat.mul_comm. apply Nat.Div0.mod_mul. }
  rewrite b64_encode_split in *.
  rewrite strip_padding_chars
    by (auto using b64_sextets_range, b64_padding_cases).
  rewrite length_map, b64_sextets_length_mod.
  rewrite b64_values_chars by apply b64_sextets_range.
  rewrite drain_sextets by exact Hok. reflexivity.
Qed.

Lemma btoa_bytes (bytes : list Z) :
  bytes_ok bytes -> JS.btoa bytes = Some (JS.b64_encode bytes).
Proof.
  intros Hok. unfold JS.btoa.
  replace (forallb _ bytes) with true; [reflexivity|].
  symmetry. apply forallb_forall. intros c Hc.
  apply list_elem_of_In in Hc.
  pose proof (proj1 (Forall_forall _ _) Hok c Hc) as H. unfold is_u8 in H.
  apply andb_true_iff. split; apply Z.leb_le; lia.
Qed.

(** *** The loops of the two conversions *)

Lemma append_loop_eq {A : Type} (f : nat -> A) (n i : nat) (acc : list A) :
  JS.for_loop n i (fun j (s : list A) => s ++ [f j]) acc
  = acc ++ map f (seq i n).
Proof.
  revert i acc. induction n as [|n IH]; intros i acc; simpl.
  - by rewrite app_nil_r.
  - rewrite IH, <- app_assoc. reflexivity.
Qed.

Lemma map_lookup_seq {A B : Type} (g : option A -> B) (l : list A) :
  map (fun i => g (l !! i)) (seq 0 (length l)) = map (fun x => g (Some x)) l.
Proof.
  induction l as [|x l IH] using rev_ind; [reflexivity|].
  rewrite length_app, Nat.add_comm. cbn [length plus].
  rewrite seq_S, !map_app. cbn [map plus]. f_equal.
  - rewrite <- IH. apply map_ext_in. intros i Hi. apply in_seq in Hi.
    rewrite lookup_app_l by lia. reflexivity.
  - rewrite list_lookup_middle by reflexivity. reflexivity.
Qed.

Lemma ToUint8_bytes (bytes : list Z) :
  bytes_ok bytes -> map (fun x => JS.ToUint8 (Some x)) bytes = bytes.
Proof.
  induction 1 as [|x l Hx _ IH]; [reflexivity|].
  cbn [map]. rewrite IH. unfold is_u8 in Hx. unfold JS.ToUint8.
  rewrite Z.mod_small by lia. reflexivity.
Qed.

Lemma ToUint16_bytes (bytes : list Z) :
  bytes_ok bytes -> map (fun x => JS.fromCharCode (Some x)) bytes = bytes.
Proof.
  induction 1 as [|x l Hx _ IH]; [reflexivity|].
  cbn [map]. rewrite IH. unfold is_u8 in Hx. unfold JS.fromCharCode, JS.ToUint16.
  rewrite Z.mod_small by lia. reflexivity.
Qed.

Lemma uint8ArrayToBase64_eq (array : list Z) :
  bytes_ok array -> uint8ArrayToBase64 array = Some (JS.b64_encode array).
Proof.
  intros Hok. unfold uint8ArrayToBase64.
  rewrite (append_loop_eq (fun i => JS.fromCharCode (array !! i))).
  cbn [app]. rewrite (map_lookup_seq JS.fromCharCode), ToUint16_bytes by exact Hok.
  by apply btoa_bytes.
Qed.

Lemma copy_loop_eq (binary : list Z) :
  JS.for_loop (length binary) 0
    (fun i bytes => JS.store bytes i (JS.charCodeAt binary i))
    (JS.new_Uint8Array (length binary))
  = map (fun c => JS.ToUint8 (Some c)) binary.
Proof.
  apply list_eq. intros j.
  rewrite (store_loop_lookup (JS.charCodeAt binary))
    by (unfold JS.new_Uint8Array; rewrite length_replicate; lia).
  rewrite list_lookup_fmap. unfold JS.charCodeAt, JS.new_Uint8Array.
  case_decide as Hj.
  - destruct (lookup_lt_is_Some_2 binary j) as [c Hc]; [lia|].
    rewrite Hc. reflexivity.
  - assert (E1 : replicate (length binary) 0 !! j = None)
      by (apply lookup_replicate_None; lia).
    assert (E2 : binary !! j = None) by (apply lookup_ge_None; lia).
    rewrite E1, E2. reflexivity.
Qed.

Lemma base64ToUint8Array_eq (s : list Z) :
  base64ToUint8Array s =
    match JS.atob s with
    | Some binary => map (fun c => JS.ToUint8 (Some c)) binary
    | None => []
    end.
Proof.
  unfold base64ToUint8Array. destruct (JS.atob s) as [binary|]; [|reflexivity].
  apply copy_loop_eq.
Qed.

Lemma b64_encode_chars (bytes : list Z) :
  Forall (fun c => is_b64_output_char c = true) (JS.b64_encode bytes).
Proof.
  rewrite b64_encode_split. apply Forall_app. split.
  - pose proof (b64_sextets_range bytes) as H.
    induction H as [|v vs Hv _ IH]; constructor; [by apply b64_char_output|exact IH].
  - destruct (b64_padding_cases bytes) as [->|[->| ->]]; repeat constructor.
Qed.

(** C5. A byte sequence always has a base64 rendering, and decoding that
    rendering gives the sequence back. The rendering is padded to a
    multiple of four characters, all of them from the base64 alphabet or
    [=]; the bytes of "Hello" are rendered as ["SGVsbG8="], which decodes
    to them. *)
Theorem base64_round_trip (b : list Z) :
  bytes_ok b ->
  (exists s, uint8ArrayToBase64 b = Some s /\
     base64ToUint8Array s = b /\
     length s = (4 * ((length b + 2) / 3))%nat /\
     Forall (fun c => is_b64_output_char c = true) s) /\
  uint8ArrayToBase64 [0x48; 0x65; 0x6C; 0x6C; 0x6F] = Some (JS.lit "SGVsbG8=") /\
  base64ToUint8Array (JS.lit "SGVsbG8=") = [0x48; 0x65; 0x6C; 0x6C; 0x6F].
Proof.
  intros Hok. split; [|split; reflexivity].
  exists (JS.b64_encode b). split; [by apply uint8ArrayToBase64_eq|].
  split; [|split; [apply b64_encode_length|apply b64_encode_chars]].
  rewrite base64ToUint8Array_eq, atob_b64_encode by exact Hok.
  by apply ToUint8_bytes.
Qed.

Lemma base64_round_trip_witness :
  exists s, uint8ArrayToBase64 [255; 254; 253; 1] = Some s /\
    base64ToUint8Array s = [255; 254; 253; 1] /\
    length s = (4 * ((length [255; 254; 253; 1] + 2) / 3))%nat /\
    Forall (fun c => is_b64_output_char c = true) s.
Proof.
  apply (base64_round_trip [255; 254; 253; 1]).
  unfold bytes_ok, is_u8. repeat constructor; lia.
Defined.

Lemma b64_values_bad (l : list Z) (c : Z) :
  In c l -> JS.b64_value c = None -> JS.b64_values l = None.
Proof.
  induction l as [|x l IH]; intros Hin Hc; [destruct Hin|].
  simpl. destruct Hin as [->|Hin].
  - rewrite Hc. reflexivity.
  - rewrite (IH Hin Hc). destruct (JS.b64_value x); reflexivity.
Qed.

Lemma strip_padding_keeps (data : list Z) (c : Z) :
  In c data -> c <> 61 -> In c (JS.strip_padding data).
Proof.
  intros Hin Hc. unfold JS.strip_padding.
  destruct (Nat.eqb (length data mod 4) 0); [|exact Hin].
  apply in_rev in Hin.
  destruct (rev data) as [|c1 [|c2 r]] eqn:E.
  - destruct Hin.
  - destruct (Z.eqb_spec c1 61) as [->|Hne].
    + destruct Hin as [<-|[]]. congruence.
    + apply in_rev. rewrite E. exact Hin.
  - destruct (Z.eqb_spec c1 61) as [->|Hne1]; cbn [andb].
    + destruct (Z.eqb_spec c2 61) as [->|Hne2].
      * apply in_rev. rewrite rev_involutive.
        destruct Hin as [<-|[<-|Hin]]; congruence.
      * apply in_rev. rewrite rev_involutive.
        destruct Hin as [<-|Hin]; congruence.
    + apply in_rev. rewrite E. exact Hin.
Qed.

(** A character that is neither white space, nor in the alphabet, nor [=]
    makes [atob] fail. *)
Lemma atob_bad_char (s : list Z) (c : Z) :
  In c s -> JS.is_ascii_whitespace c = false -> is_b64_output_char c = false ->
  JS.atob s = None.
Proof.
  intros Hin Hws Hout. unfold is_b64_output_char in Hout.
  destruct (JS.b64_value c) eqn:Hv; [discriminate|].
  apply Z.eqb_neq in Hout.
  unfold JS.atob. destruct (Nat.eqb _ 1); [reflexivity|].
  rewrite (b64_values_bad _ c); [reflexivity| |exact Hv].
  apply strip_padding_keeps; [|exact Hout].
  apply filter_In. split; [exact Hin|]. rewrite Hws. reflexivity.
Qed.

(** C8. The base64 decoder returns a byte sequence for every string: when
    [atob] rejects the string the result is the empty sequence, the same
    result as for the empty string. A string holding a character that is
    neither white space, nor of the alphabet, nor [=] is such a string. *)
Theorem base64_decode_swallows_errors (s : list Z) :
  (JS.atob s = None -> base64ToUint8Array s = []) /\
  ((exists c, In c s /\ JS.is_ascii_whitespace c = false /\
              is_b64_output_char c = false) ->
   base64ToUint8Array s = []) /\
  base64ToUint8Array [] = [].
Proof.
  assert (H : JS.atob s = None -> base64ToUint8Array s = []).
  { intros E. rewrite base64ToUint8Array_eq, E. reflexivity. }
  split; [exact H|]. split; [|reflexivity].
  intros (c & Hin & Hws & Hout). apply H. by apply (atob_bad_char s c).
Qed.

Lemma base64_decode_swallows_errors_witness :
  base64ToUint8Array (JS.lit "SGVsb") = [] /\
  base64ToUint8Array (JS.lit "SG*sbG8=") = [].
Proof.
  split.
  - apply (proj1 (base64_decode_swallows_errors (JS.lit "SGVsb"))).
    reflexivity.
  - apply (proj1 (proj2 (base64_decode_swallows_errors (JS.lit "SG*sbG8=")))).
    exists 42. repeat split. simpl. tauto.
Defined.

(** ** The text codec *)

Lemma lor_128 (x : Z) : 0 <= x < 64 -> Z.lor 128 x = 128 + x.
Proof.
  intros Hx. change 128 with (Z.shiftl 2 6) at 1.
  rewrite lor_shiftl_add by lia. reflexivity.
Qed.

Lemma trail_byte (cp k : Z) :
  0 <= k -> Z.lor 128 (Z.land (Z.shiftr cp k) 63) = 128 + (cp / 2 ^ k) mod 64.
Proof.
  intros Hk. rewrite land_63, shiftr_div by exact Hk.
  apply lor_128. apply Z.mod_pos_bound. lia.
Qed.

Lemma cont_step (acc b : Z) :
  128 <= b <= 191 -> Z.lor (Z.shiftl acc 6) (Z.land b 63) = acc * 64 + (b - 128).
Proof.
  intros Hb. rewrite land_63.
  rewrite lor_shiftl_add by (try apply Z.mod_pos_bound; lia).
  change (2 ^ 6) with 64. euclid.
Qed.

Ltac in_range_bounds :=
  unfold valid1, valid2, valid3, valid4, JS.in_range in *;
  repeat match goal with
  | H : _ && _ = true |- _ => apply andb_true_iff in H; destruct H
  | H : _ || _ = true |- _ => apply orb_true_iff in H; destruct H
  | H : (_ <=? _) = true |- _ => apply Z.leb_le in H
  | H : (_ =? _) = true |- _ => apply Z.eqb_eq in H
  end.

Ltac decide_if :=
  match goal with
  | |- context [if ?c then _ else _] =>
      first [replace c with true by lia | replace c with false by lia]
  end.

Ltac run_handler :=
  cbn [JS.utf8_decode]; unfold JS.utf8_decoder_handler, JS.utf8_decoder_init;
  cbn [JS.bytes_needed JS.bytes_seen JS.code_point JS.lower_boundary
       JS.upper_boundary Nat.eqb negb];
  unfold JS.in_range.

(** *** The decoder on well-formed sequences *)

Lemma decode_seq1 (b0 : Z) (r : list Z) :
  valid1 b0 = true ->
  JS.utf8_decode JS.utf8_decoder_init (b0 :: r)
  = match JS.utf8_decode JS.utf8_decoder_init r with
    | Some cps => Some (b0 :: cps)
    | None => None
    end.
Proof.
  intros H. in_range_bounds. run_handler. decide_if. reflexivity.
Qed.

Lemma decode_seq2 (b0 b1 : Z) (r : list Z) :
  valid2 b0 b1 = true ->
  JS.utf8_decode JS.utf8_decoder_init (b0 :: b1 :: r)
  = match JS.utf8_decode JS.utf8_decoder_init r with
    | Some cps => Some (scalar2 b0 b1 :: cps)
    | None => None
    end.
Proof.
  intros H. in_range_bounds. run_handler. repeat decide_if.
  repeat (run_handler; repeat decide_if; cbn [negb]).
  rewrite cont_step, land_31 by lia.
  replace (b0 mod 32 * 64 + (b1 - 128)) with (scalar2 b0 b1)
    by (unfold scalar2; euclid).
  reflexivity.
Qed.

Lemma decode_seq3 (b0 b1 b2 : Z) (r : list Z) :
  valid3 b0 b1 b2 = true ->
  JS.utf8_decode JS.utf8_decoder_init (b0 :: b1 :: b2 :: r)
  = match JS.utf8_decode JS.utf8_decoder_init r with
    | Some cps => Some (scalar3 b0 b1 b2 :: cps)
    | None => None
    end.
Proof.
  intros H. in_range_bounds; subst;
    repeat (run_handler; cbn [Z.eqb Pos.eqb]; repeat decide_if; cbn [negb]);
    rewrite !cont_step, land_15 by lia;
    match goal with
    | |- context [Some (?e :: _)] =>
        replace e with (scalar3 b0 b1 b2) by (unfold scalar3; euclid)
    | |- context [Some (?e :: _)] =>
        replace e with (scalar3 224 b1 b2) by (unfold scalar3; euclid)
    | |- context [Some (?e :: _)] =>
        replace e with (scalar3 237 b1 b2) by (unfold scalar3; euclid)
    end; reflexivity.
Qed.

Lemma decode_seq4 (b0 b1 b2 b3 : Z) (r : list Z) :
  valid4 b0 b1 b2 b3 = true ->
  JS.utf8_decode JS.utf8_decoder_init (b0 :: b1 :: b2 :: b3 :: r)
  = match JS.utf8_decode JS.utf8_decoder_init r with
    | Some cps => Some (scalar4 b0 b1 b2 b3 :: cps)
    | None => None
    end.
Proof.
  intros H. in_range_bounds; subst;
    repeat (run_handler; cbn [Z.eqb Pos.eqb]; repeat decide_if; cbn [negb]);
    rewrite !cont_step, land_7 by lia;
    match goal with
    | |- context [Some (?e :: _)] =>
        replace e with (scalar4 b0 b1 b2 b3) by (unfold scalar4; euclid)
    | |- context [Some (?e :: _)] =>
        replace e with (scalar4 240 b1 b2 b3) by (unfold scalar4; euclid)
    | |- context [Some (?e :: _)] =>
        replace e with (scalar4 244 b1 b2 b3) by (unfold scalar4; euclid)
    end; reflexivity.
Qed.

(** *** The encoder on the scalar values of well-formed sequences *)

Lemma utf8_trail_1 (cp : Z) : JS.utf8_trail cp 1 = [128 + cp mod 64].
Proof.
  cbn [JS.utf8_trail]. change (6 * Z.of_nat 0) with 0.
  rewrite trail_byte by lia. change (2 ^ 0) with 1. rewrite Z.div_1_r.
  reflexivity.
Qed.

Lemma utf8_trail_2 (cp : Z) :
  JS.utf8_trail cp 2 = [128 + (cp / 64) mod 64; 128 + cp mod 64].
Proof.
  change (JS.utf8_trail cp 2)
    with (Z.lor 128 (Z.land (Z.shiftr cp 6) 63) :: JS.utf8_trail cp 1).
  rewrite trail_byte, utf8_trail_1 by lia. reflexivity.
Qed.

Lemma utf8_trail_3 (cp : Z) :
  JS.utf8_trail cp 3
  = [128 + (cp / 4096) mod 64; 128 + (cp / 64) mod 64; 128 + cp mod 64].
Proof.
  change (JS.utf8_trail cp 3)
    with (Z.lor 128 (Z.land (Z.shiftr cp 12) 63) :: JS.utf8_trail cp 2).
  rewrite trail_byte, utf8_trail_2 by lia. reflexivity.
Qed.

Ltac run_encoder :=
  unfold JS.utf8_encoder_handler, JS.in_range;
  repeat (decide_if; cbv beta iota zeta);
  rewrite ?utf8_trail_1, ?utf8_trail_2, ?utf8_trail_3.

Lemma encode_seq1 (b0 : Z) :
  valid1 b0 = true -> JS.utf8_encoder_handler b0 = [b0] /\ is_scalar b0.
Proof.
  intros H. in_range_bounds. split; [|unfold is_scalar; lia].
  run_encoder. reflexivity.
Qed.

Lemma encode_seq2 (b0 b1 : Z) :
  valid2 b0 b1 = true ->
  JS.utf8_encoder_handler (scalar2 b0 b1) = [b0; b1] /\ is_scalar (scalar2 b0 b1).
Proof.
  intros H. in_range_bounds. unfold scalar2, is_scalar. split; [|lia].
  run_encoder. change (6 * Z.of_nat 1) with 6.
  rewrite shiftr_div by lia. change (2 ^ 6) with 64.
  f_equal; [|f_equal]; euclid.
Qed.

Lemma encode_seq3 (b0 b1 b2 : Z) :
  valid3 b0 b1 b2 = true ->
  JS.utf8_encoder_handler (scalar3 b0 b1 b2) = [b0; b1; b2] /\
  is_scalar (scalar3 b0 b1 b2).
Proof.
  intros H. unfold scalar3, is_scalar.
  in_range_bounds; (split; [|lia]);
    run_encoder; change (6 * Z.of_nat 2) with 12;
    rewrite shiftr_div by lia; change (2 ^ 12) with 4096;
    (f_equal; [|f_equal; [|f_equal]]); euclid.
Qed.

Lemma encode_seq4 (b0 b1 b2 b3 : Z) :
  valid4 b0 b1 b2 b3 = true ->
  JS.utf8_encoder_handler (scalar4 b0 b1 b2 b3) = [b0; b1; b2; b3] /\
  is_scalar (scalar4 b0 b1 b2 b3).
Proof.
  intros H. unfold scalar4, is_scalar.
  in_range_bounds; (split; [|lia]);
    run_encoder; change (6 * Z.of_nat 3) with 18;
    rewrite shiftr_div by lia; change (2 ^ 18) with 262144;
    (f_equal; [|f_equal; [|f_equal; [|f_equal]]]); euclid.
Qed.

(** *** Induction over well-formed input, one sequence at a time *)

Section ValidInduction.
Variable P : list Z -> Prop.
Hypothesis P_nil : P [].
Hypothesis P_1 : forall b0 r,
  valid1 b0 = true -> utf8_valid r = true -> P r -> P (b0 :: r).
Hypothesis P_2 : forall b0 b1 r,
  valid2 b0 b1 = true -> utf8_valid r = true -> P r -> P (b0 :: b1 :: r).
Hypothesis P_3 : forall b0 b1 b2 r,
  valid3 b0 b1 b2 = true -> utf8_valid r = true -> P r ->
  P (b0 :: b1 :: b2 :: r).
Hypothesis P_4 : forall b0 b1 b2 b3 r,
  valid4 b0 b1 b2 b3 = true -> utf8_valid r = true -> P r ->
  P (b0 :: b1 :: b2 :: b3 :: r).

Lemma utf8_valid_bounded (n : nat) (bytes : list Z) :
  (length bytes <= n)%nat -> utf8_valid bytes = true -> P bytes.
Proof.
  revert bytes. induction n as [|n IH]; intros bytes Hlen Hv.
  { destruct bytes; [exact P_nil|simpl in Hlen; lia]. }
  destruct bytes as [|b0 r0]; [exact P_nil|].
  cbn [utf8_valid] in Hv. cbn [length] in Hlen.
  destruct (valid1 b0) eqn:E1.
  { apply P_1; auto. apply IH; [lia|exact Hv]. }
  destruct r0 as [|b1 r1]; [discriminate|]. cbn [length] in Hlen.
  destruct (valid2 b0 b1) eqn:E2.
  { apply P_2; auto. apply IH; [lia|exact Hv]. }
  destruct r1 as [|b2 r2]; [discriminate|]. cbn [length] in Hlen.
  destruct (valid3 b0 b1 b2) eqn:E3.
  { apply P_3; auto. apply IH; [lia|exact Hv]. }
  destruct r2 as [|b3 r3]; [discriminate|]. cbn [length] in Hlen.
  destruct (valid4 b0 b1 b2 b3) eqn:E4; [|discriminate].
  apply P_4; auto. apply IH; [lia|exact Hv].
Qed.

Lemma utf8_valid_ind (bytes : list Z) : utf8_valid bytes = true -> P bytes.
Proof. apply (utf8_valid_bounded (length bytes)). lia. Qed.
End ValidInduction.

(** The decoder accepts well-formed input; the scalar values it returns
    encode back to the input. *)
Lemma decode_valid (bytes : list Z) :
  utf8_valid bytes = true ->
  exists cps,
    JS.utf8_decode JS.utf8_decoder_init bytes = Some cps /\
    flat_map JS.utf8_encoder_handler cps = bytes /\
    Forall is_scalar cps.
Proof.
  revert bytes. apply utf8_valid_ind.
  - exists []. repeat split. constructor.
  - intros b0 r H _ (cps & Hd & He & Hs).
    destruct (encode_seq1 b0 H) as [E S].
    exists (b0 :: cps). rewrite decode_seq1, Hd by exact H.
    cbn [flat_map]. rewrite E, He. repeat split. by constructor.
  - intros b0 b1 r H _ (cps & Hd & He & Hs).
    destruct (encode_seq2 b0 b1 H) as [E S].
    exists (scalar2 b0 b1 :: cps). rewrite decode_seq2, Hd by exact H.
    cbn [flat_map]. rewrite E, He. repeat split. by constructor.
  - intros b0 b1 b2 r H _ (cps & Hd & He & Hs).
    destruct (encode_seq3 b0 b1 b2 H) as [E S].
    exists (scalar3 b0 b1 b2 :: cps). rewrite decode_seq3, Hd by exact H.
    cbn [flat_map]. rewrite E, He. repeat split. by constructor.
  - intros b0 b1 b2 b3 r H _ (cps & Hd & He & Hs).
    destruct (encode_seq4 b0 b1 b2 b3 H) as [E S].
    exists (scalar4 b0 b1 b2 b3 :: cps). rewrite decode_seq4, Hd by exact H.
    cbn [flat_map]. rewrite E, He. repeat split. by constructor.
Qed.

(** *** Scalar values and code units *)

Lemma scalar_values_code_units (cps : list Z) :
  Forall is_scalar cps ->
  JS.scalar_values (flat_map JS.code_units_of cps) = cps.
Proof.
  induction 1 as [|cp cps [Hr Hs] _ IH]; [reflexivity|].
  cbn [flat_map]. remember (flat_map JS.code_units_of cps) as rest.
  unfold JS.code_units_of.
  destruct (Z.leb_spec cp 65535) as [Hle|Hgt].
  - cbn [app JS.scalar_values].
    replace ((cp <? 55296) || (57343 <? cp)) with true by lia.
    rewrite IH. reflexivity.
  - cbn [app JS.scalar_values].
    rewrite shiftr_div, !land_1023 by lia. change (2 ^ 10) with 1024.
    assert (H1 : 0 <= (cp - 65536) / 1024 < 1024) by euclid.
    assert (H2 : 0 <= (cp - 65536) mod 1024 < 1024) by euclid.
    unfold JS.in_range.
    replace ((55296 + (cp - 65536) / 1024 <? 55296)
             || (57343 <? 55296 + (cp - 65536) / 1024)) with false by lia.
    replace (56320 <=? 55296 + (cp - 65536) / 1024) with false by lia.
    replace ((56320 <=? 56320 + (cp - 65536) mod 1024)
             && (56320 + (cp - 65536) mod 1024 <=? 57343)) with true by lia.
    rewrite IH. f_equal. euclid.
Qed.

Lemma encoder_bom : JS.utf8_encoder_handler 65279 = utf8_bom.
Proof. reflexivity. Qed.

Lemma drop_bom_no_bom (bytes cps : list Z) :
  flat_map JS.utf8_encoder_handler cps = bytes ->
  take 3 bytes <> utf8_bom -> JS.drop_bom cps = cps.
Proof.
  intros He Hb. destruct cps as [|cp r]; [reflexivity|].
  unfold JS.drop_bom. destruct (Z.eqb_spec cp 65279) as [->|]; [|reflexivity].
  exfalso. apply Hb. rewrite <- He. reflexivity.
Qed.


(** *** The decoder on input that is not well-formed *)

Ltac split_if :=
  match goal with
  | |- context [if ?c then _ else _] =>
      lazymatch c with
      | context [if _ then _ else _] => fail
      | _ => destruct c eqn:?
      end
  end.

Ltac reject :=
  unfold valid1, valid2, valid3, valid4, JS.in_range in *;
  repeat (run_handler; try split_if);
  first [reflexivity | exfalso; lia].

Lemma decode_invalid_bounded (n : nat) (bytes : list Z) :
  (length bytes <= n)%nat -> utf8_valid bytes = false ->
  JS.utf8_decode JS.utf8_decoder_init bytes = None.
Proof.
  revert bytes. induction n as [|n IH]; intros bytes Hlen Hv.
  { destruct bytes; [discriminate|simpl in Hlen; lia]. }
  destruct bytes as [|b0 r0]; [discriminate|].
  cbn [utf8_valid] in Hv. cbn [length] in Hlen.
  destruct (valid1 b0) eqn:E1.
  { rewrite decode_seq1, IH by (exact E1 || lia || exact Hv). reflexivity. }
  destruct r0 as [|b1 r1]; [reject|]. cbn [length] in Hlen.
  destruct (valid2 b0 b1) eqn:E2.
  { rewrite decode_seq2, IH by (exact E2 || lia || exact Hv). reflexivity. }
  destruct r1 as [|b2 r2]; [reject|]. cbn [length] in Hlen.
  destruct (valid3 b0 b1 b2) eqn:E3.
  { rewrite decode_seq3, IH by (exact E3 || lia || exact Hv). reflexivity. }
  destruct r2 as [|b3 r3]; [reject|]. cbn [length] in Hlen.
  destruct (valid4 b0 b1 b2 b3) eqn:E4.
  { rewrite decode_seq4, IH by (exact E4 || lia || exact Hv). reflexivity. }
  clear Hv IH Hlen. reject.
Qed.

Lemma decode_invalid (bytes : list Z) :
  utf8_valid bytes = false ->
  JS.utf8_decode JS.utf8_decoder_init bytes = None.
Proof. apply (decode_invalid_bounded (length bytes)). lia. Qed.

(** The fatal decoder throws exactly on the input that is not valid
    UTF-8. *)
Lemma TextDecoder_throws_iff (bytes : list Z) :
  JS.TextDecoder_decode bytes = None <-> utf8_valid bytes = false.
Proof.
  unfold JS.TextDecoder_decode. destruct (utf8_valid bytes) eqn:Hv.
  - destruct (decode_valid bytes Hv) as (cps & -> & _). split; discriminate.
  - rewrite (decode_invalid bytes Hv). split; reflexivity.
Qed.

(** *** The round trip *)

(** Valid UTF-8 that does not start with the byte order mark. *)
Lemma text_round_trip_valid (b : list Z) :
  utf8_valid b = true -> take 3 b <> utf8_bom ->
  stringToUint8Array (uint8ArrayToString b) = b.
Proof.
  intros Hv Hb. destruct (decode_valid b Hv) as (cps & Hd & He & Hs).
  unfold uint8ArrayToString, JS.TextDecoder_decode. rewrite Hd.
  rewrite (drop_bom_no_bom b cps He Hb).
  unfold stringToUint8Array, JS.TextEncoder_encode.
  rewrite scalar_values_code_units by exact Hs. exact He.
Qed.

(** What the round trip does with a leading byte order mark: the decoder
    leaves it out of the string, so the three bytes are lost. *)
Lemma text_round_trip_bom (r : list Z) :
  utf8_valid (utf8_bom ++ r) = true ->
  stringToUint8Array (uint8ArrayToString (utf8_bom ++ r)) = r.
Proof.
  intros Hv. change (utf8_valid r = true) in Hv.
  destruct (decode_valid r Hv) as (cps & Hd & He & Hs).
  unfold uint8ArrayToString, JS.TextDecoder_decode.
  change (utf8_bom ++ r) with (239 :: 187 :: 191 :: r).
  rewrite decode_seq3, Hd by reflexivity.
  change (JS.drop_bom (scalar3 239 187 191 :: cps)) with cps.
  unfold stringToUint8Array, JS.TextEncoder_encode.
  rewrite scalar_values_code_units by exact Hs. exact He.
Qed.

(** What it does with input that is not valid UTF-8: the placeholder
    string is returned and encoded. *)
Lemma text_round_trip_invalid (b : list Z) :
  utf8_valid b = false ->
  uint8ArrayToString b = JS.lit "[Binary Content]" /\
  stringToUint8Array (uint8ArrayToString b) = JS.lit "[Binary Content]".
Proof.
  intros Hv. unfold uint8ArrayToString.
  rewrite (proj2 (TextDecoder_throws_iff b) Hv). split; reflexivity.
Qed.

(** C7 (as amended). A valid UTF-8 byte sequence that does not start with
    the byte order mark [EF BB BF] is given back by the text round trip:
    decoding it to a string and encoding that string returns it. The
    round trip gives its input back under this precondition only. *)
Theorem text_round_trip (b : list Z) :
  (utf8_valid b = true -> take 3 b <> utf8_bom ->
   stringToUint8Array (uint8ArrayToString b) = b) /\
  (stringToUint8Array (uint8ArrayToString b) = b ->
   utf8_valid b = true /\ take 3 b <> utf8_bom).
Proof.
  split; [apply text_round_trip_valid|]. intros Hrt.
  destruct (utf8_valid b) eqn:Hv.
  - split; [reflexivity|]. intros Hb.
    rewrite <- (take_drop 3 b), Hb in Hv, Hrt.
    rewrite (text_round_trip_bom _ Hv) in Hrt.
    apply (f_equal length) in Hrt. rewrite length_app in Hrt.
    simpl in Hrt. lia.
  - exfalso. destruct (text_round_trip_invalid b Hv) as [_ E].
    rewrite E in Hrt. rewrite <- Hrt in Hv. discriminate.
Qed.

Lemma text_round_trip_witness :
  let b := [0xF0; 0x9F; 0x98; 0x80; 0xE2; 0x82; 0xAC; 0xC3; 0xA9; 0x41] in
  stringToUint8Array (uint8ArrayToString b) = b /\
  (utf8_valid b = true /\ take 3 b <> utf8_bom).
Proof.
  intros b.
  assert (H : stringToUint8Array (uint8ArrayToString b) = b).
  { apply (proj1 (text_round_trip b)).
    - reflexivity.
    - discriminate. }
  split; [exact H|].
  apply (proj2 (text_round_trip b)). exact H.
Defined.

(** C7 as the specification words it fails on the three bytes of the byte
    order mark: they are valid UTF-8, and the round trip returns the empty
    sequence. *)
Lemma text_round_trip_fails_on_bom :
  utf8_valid [0xEF; 0xBB; 0xBF] = true /\
  uint8ArrayToString [0xEF; 0xBB; 0xBF] = [] /\
  stringToUint8Array (uint8ArrayToString [0xEF; 0xBB; 0xBF]) = [] /\
  stringToUint8Array (uint8ArrayToString [0xEF; 0xBB; 0xBF]) <> [0xEF; 0xBB; 0xBF].
Proof. repeat split. discriminate. Qed.

(** * Further properties of the code *)

(** ** The XOR transform: keys that combine, repeat or vanish *)

(** The bytes of the output, read off the input and the key. *)
Lemma xorBuffer_lookup_total (b k : list Z) (i : nat) :
  bytes_ok b -> bytes_ok k -> k <> [] ->
  xorBuffer b k !! i
  = match b !! i, k !! (i mod length k)%nat with
    | Some x, Some kb => Some (Z.lxor x kb)
    | _, _ => None
    end.
Proof.
  intros Hb Hk Hne. destruct (b !! i) as [x|] eqn:Hx.
  - destruct (key_lookup_mod k i Hne) as [kb Hkb]. rewrite Hkb.
    by apply xorBuffer_lookup.
  - apply lookup_ge_None. rewrite xorBuffer_length. by apply lookup_ge_None.
Qed.

(** X1. Two passes with two keys give the same result in either order. *)
Theorem xorBuffer_two_keys_commute (b k1 k2 : list Z) :
  bytes_ok b -> bytes_ok k1 -> bytes_ok k2 ->
  xorBuffer (xorBuffer b k1) k2 = xorBuffer (xorBuffer b k2) k1.
Proof.
  intros Hb H1 H2.
  destruct k1 as [|a1 r1] eqn:E1; [reflexivity|].
  destruct k2 as [|a2 r2] eqn:E2; [reflexivity|].
  rewrite <- E1, <- E2 in *.
  assert (N1 : k1 <> []) by (subst; discriminate).
  assert (N2 : k2 <> []) by (subst; discriminate).
  clear E1 E2 a1 r1 a2 r2.
  apply list_eq. intros i.
  rewrite !xorBuffer_lookup_total by auto using xorBuffer_bytes_ok.
  destruct (b !! i) as [x|]; [|reflexivity].
  destruct (k1 !! (i mod length k1)%nat) as [y1|],
           (k2 !! (i mod length k2)%nat) as [y2|]; try reflexivity.
  f_equal. rewrite !Z.lxor_assoc. f_equal. apply Z.lxor_comm.
Qed.

Lemma xorBuffer_two_keys_commute_witness :
  xorBuffer (xorBuffer [1; 2; 3; 4; 5] [9; 8]) [7; 6; 5]
  = xorBuffer (xorBuffer [1; 2; 3; 4; 5] [7; 6; 5]) [9; 8].
Proof.
  apply (xorBuffer_two_keys_commute [1; 2; 3; 4; 5] [9; 8] [7; 6; 5]);
    unfold bytes_ok, is_u8; repeat constructor; lia.
Defined.

(** X2. A buffer can be processed in pieces: when the first piece holds a
    whole number of key lengths, transforming the pieces one by one and
    putting the results together is transforming the whole. *)
Theorem xorBuffer_app_aligned (b1 b2 k : list Z) (m : nat) :
  bytes_ok b1 -> bytes_ok b2 -> bytes_ok k ->
  length b1 = (m * length k)%nat ->
  xorBuffer (b1 ++ b2) k = xorBuffer b1 k ++ xorBuffer b2 k.
Proof.
  intros H1 H2 Hk Hlen.
  destruct k as [|a r] eqn:E; [reflexivity|]. rewrite <- E in *.
  assert (Hne : k <> []) by (subst; discriminate). clear E a r.
  assert (H12 : bytes_ok (b1 ++ b2)) by (apply Forall_app; by split).
  apply list_eq. intros i.
  rewrite xorBuffer_lookup_total by assumption.
  destruct (Nat.lt_ge_cases i (length b1)) as [Hlt|Hge].
  - rewrite (lookup_app_l b1 b2) by exact Hlt.
    rewrite (lookup_app_l (xorBuffer b1 k))
      by (rewrite xorBuffer_length; exact Hlt).
    rewrite xorBuffer_lookup_total by assumption. reflexivity.
  - rewrite (lookup_app_r b1 b2) by exact Hge.
    rewrite (lookup_app_r (xorBuffer b1 k))
      by (rewrite xorBuffer_length; exact Hge).
    rewrite xorBuffer_length, xorBuffer_lookup_total by assumption.
    replace (i mod length k)%nat with ((i - length b1) mod length k)%nat;
      [reflexivity|].
    replace i with ((i - length b1) + m * length k)%nat at 2 by lia.
    symmetry. apply Nat.Div0.mod_add.
Qed.

Lemma xorBuffer_app_aligned_witness :
  xorBuffer ([1; 2; 3; 4] ++ [5; 6; 7]) [9; 8]
  = xorBuffer [1; 2; 3; 4] [9; 8] ++ xorBuffer [5; 6; 7] [9; 8].
Proof.
  apply (xorBuffer_app_aligned [1; 2; 3; 4] [5; 6; 7] [9; 8] 2);
    [unfold bytes_ok, is_u8; repeat constructor; lia ..|reflexivity].
Defined.

(** X3. A key written twice in a row is the same key. *)
Theorem xorBuffer_key_doubled (b k : list Z) :
  bytes_ok b -> bytes_ok k -> xorBuffer b (k ++ k) = xorBuffer b k.
Proof.
  intros Hb Hk.
  destruct k as [|a r] eqn:E; [reflexivity|]. rewrite <- E in *.
  assert (Hne : k <> []) by (subst; discriminate). clear E a r.
  assert (Hkk : bytes_ok (k ++ k)) by (apply Forall_app; by split).
  assert (Hne2 : k ++ k <> []) by (destruct k; [congruence|discriminate]).
  assert (Hpos : (0 < length k)%nat) by (destruct k; [congruence|simpl; lia]).
  apply list_eq. intros i.
  rewrite !xorBuffer_lookup_total by assumption.
  destruct (b !! i) as [x|]; [|reflexivity].
  replace ((k ++ k) !! (i mod length (k ++ k))%nat)
    with (k !! (i mod length k)%nat); [reflexivity|].
  rewrite length_app.
  pose proof (Nat.mod_upper_bound i (length k + length k) ltac:(lia)) as Hj.
  set (j := (i mod (length k + length k))%nat) in *.
  assert (Hij : (i mod length k = j mod length k)%nat).
  { unfold j. replace (length k + length k)%nat with (length k * 2)%nat by lia.
    rewrite Nat.Div0.mod_mul_r.
    rewrite Nat.mul_comm, Nat.Div0.mod_add. symmetry. apply Nat.Div0.mod_mod. }
  rewrite Hij.
  destruct (Nat.lt_ge_cases j (length k)) as [Hlt|Hge].
  - rewrite lookup_app_l by exact Hlt. rewrite Nat.mod_small by exact Hlt.
    reflexivity.
  - rewrite lookup_app_r by exact Hge.
    replace (j mod length k)%nat with (j - length k)%nat; [reflexivity|].
    replace j with ((j - length k) + 1 * length k)%nat at 2 by lia.
    rewrite Nat.Div0.mod_add. symmetry. apply Nat.mod_small. lia.
Qed.

Lemma xorBuffer_key_doubled_witness :
  xorBuffer [1; 2; 3; 4; 5] ([9; 8; 7] ++ [9; 8; 7]) = xorBuffer [1; 2; 3; 4; 5] [9; 8; 7].
Proof.
  apply (xorBuffer_key_doubled [1; 2; 3; 4; 5] [9; 8; 7]);
    unfold bytes_ok, is_u8; repeat constructor; lia.
Defined.

(** X4. A key made of zero bytes changes nothing. *)
Theorem xorBuffer_zero_key (b k : list Z) :
  bytes_ok b -> Forall (fun x => x = 0) k -> xorBuffer b k = b.
Proof.
  intros Hb Hz.
  destruct k as [|a r] eqn:E; [reflexivity|]. rewrite <- E in *.
  assert (Hne : k <> []) by (subst; discriminate). clear E a r.
  assert (Hk : bytes_ok k).
  { eapply Forall_impl; [exact Hz|]. intros x ->. unfold is_u8. lia. }
  apply list_eq. intros i.
  rewrite xorBuffer_lookup_total by assumption.
  destruct (b !! i) as [x|]; [|reflexivity].
  destruct (key_lookup_mod k i Hne) as [kb Hkb]. rewrite Hkb.
  rewrite (Forall_lookup_1 _ _ _ _ Hz Hkb). by rewrite Z.lxor_0_r.
Qed.

Lemma xorBuffer_zero_key_witness :
  xorBuffer [72; 101; 108] [0; 0] = [72; 101; 108].
Proof.
  apply (xorBuffer_zero_key [72; 101; 108] [0; 0]).
  - unfold bytes_ok, is_u8; repeat constructor; lia.
  - repeat constructor.
Defined.

(** X5. The output gives the key away to whoever knows the input: the
    output combined with the input, byte by byte, is the key repeated. *)
Theorem xorBuffer_known_plaintext (b k : list Z) (i : nat) (x : Z) :
  bytes_ok b -> bytes_ok k -> k <> [] -> b !! i = Some x ->
  exists c, xorBuffer b k !! i = Some c /\
            k !! (i mod length k)%nat = Some (Z.lxor c x).
Proof.
  intros Hb Hk Hne Hx. destruct (key_lookup_mod k i Hne) as [kb Hkb].
  exists (Z.lxor x kb). split; [by apply xorBuffer_lookup|].
  rewrite Hkb. f_equal.
  rewrite (Z.lxor_comm x kb), Z.lxor_assoc, Z.lxor_nilpotent.
  by rewrite Z.lxor_0_r.
Qed.

Lemma xorBuffer_known_plaintext_witness :
  exists c, xorBuffer [72; 101; 108] [42; 7] !! 2%nat = Some c /\
            [42; 7] !! (2 mod length [42; 7])%nat = Some (Z.lxor c 108).
Proof.
  apply (xorBuffer_known_plaintext [72; 101; 108] [42; 7] 2 108);
    [unfold bytes_ok, is_u8; repeat constructor; lia ..
    |discriminate|reflexivity].
Defined.

(** ** The hex codec: from text to bytes and back *)

Lemma byte_hex_digits_of (b : Z) :
  is_u8 b ->
  JS.padStart (JS.toString16 b) 2 48
  = [JS.digit_char (b / 16); JS.digit_char (b mod 16)].
Proof.
  revert b. apply u8_all_forall. unfold u8_all.
  apply Forall_forall. intros b Hb.
  apply list_elem_of_In, in_map_iff in Hb as (n & <- & Hn).
  apply in_seq in Hn.
  do 256 (destruct n as [|n]; [vm_compute; reflexivity|]). lia.
Qed.

Lemma digit_char_nibble (c : Z) :
  JS.is_hex_char c = true -> JS.digit_char (nibble c) = hex_lower c.
Proof. revert c. apply hex_chars_all. check_each. Qed.

Lemma hex_of_pair (h l : Z) :
  0 <= h <= 15 -> 0 <= l <= 15 ->
  JS.padStart (JS.toString16 (h * 16 + l)) 2 48
  = [JS.digit_char h; JS.digit_char l].
Proof.
  intros Hh Hl. rewrite byte_hex_digits_of by (unfold is_u8; lia).
  f_equal; [|f_equal]; f_equal; euclid.
Qed.

Lemma encode_pair_nibbles (digits : list Z) :
  Forall (fun c => JS.is_hex_char c = true) digits ->
  uint8ArrayToHex (pair_nibbles (map nibble digits)) = hex_canonical digits.
Proof.
  induction digits as [| d | h l r IH] using list_pair_ind; intros Hd.
  - reflexivity.
  - apply Forall_cons in Hd as [Hd _].
    cbn [map pair_nibbles]. rewrite uint8ArrayToHex_cons.
    pose proof (nibble_range d Hd) as Hr.
    replace (nibble d) with (0 * 16 + nibble d) by lia.
    rewrite hex_of_pair by lia. rewrite (digit_char_nibble d Hd). reflexivity.
  - apply Forall_cons in Hd as [Hh Hd]. apply Forall_cons in Hd as [Hl Hd].
    cbn [map pair_nibbles]. rewrite uint8ArrayToHex_cons.
    rewrite hex_of_pair by (apply nibble_range; assumption).
    rewrite (digit_char_nibble h Hh), (digit_char_nibble l Hl), IH by exact Hd.
    reflexivity.
Qed.

Lemma hex_canonical_even (digits : list Z) :
  Nat.even (length digits) = true -> hex_canonical digits = map hex_lower digits.
Proof.
  induction digits as [| d | h l r IH] using list_pair_ind; intros He.
  - reflexivity.
  - discriminate.
  - cbn [hex_canonical map]. rewrite IH by exact He. reflexivity.
Qed.

(** X6. Decoding a hex string and rendering the bytes again gives the
    string in canonical form: the hex digits it holds, in lower case, with
    a [0] before a last digit that has no partner. When the number of
    digits is even this is the stripped string in lower case, so a string
    of an even number of lowercase hex digits comes back unchanged. *)
Theorem hex_decode_then_encode (s : list Z) :
  uint8ArrayToHex (hexToUint8Array s) = hex_canonical (JS.replace_non_hex s) /\
  (Nat.even (length (JS.replace_non_hex s)) = true ->
   uint8ArrayToHex (hexToUint8Array s) = map hex_lower (JS.replace_non_hex s)) /\
  (Forall (fun c => is_lower_hex_char c = true) s -> Nat.even (length s) = true ->
   uint8ArrayToHex (hexToUint8Array s) = s).
Proof.
  assert (H : uint8ArrayToHex (hexToUint8Array s)
              = hex_canonical (JS.replace_non_hex s)).
  { rewrite hexToUint8Array_nibbles.
    apply encode_pair_nibbles, replace_non_hex_all. }
  split; [exact H|]. split.
  - intros He. rewrite H. by apply hex_canonical_even.
  - intros Hs He.
    assert (Hid : JS.replace_non_hex s = s).
    { apply replace_non_hex_id. eapply Forall_impl; [exact Hs|].
      intros c Hc. unfold is_lower_hex_char in Hc. unfold JS.is_hex_char.
      rewrite Hc. reflexivity. }
    rewrite H, Hid, hex_canonical_even by exact He.
    clear H Hid He. induction Hs as [|c r Hc _ IH]; [reflexivity|].
    cbn [map]. rewrite IH. f_equal.
    unfold hex_lower. unfold is_lower_hex_char in Hc.
    replace ((65 <=? c) && (c <=? 70)) with false by lia. reflexivity.
Qed.

Lemma hex_decode_then_encode_witness :
  uint8ArrayToHex (hexToUint8Array (JS.lit "DE:ad-be#EF"))
    = map hex_lower (JS.replace_non_hex (JS.lit "DE:ad-be#EF")) /\
  uint8ArrayToHex (hexToUint8Array (JS.lit "00ff7a")) = JS.lit "00ff7a".
Proof.
  split.
  - apply (proj1 (proj2 (hex_decode_then_encode (JS.lit "DE:ad-be#EF")))).
    reflexivity.
  - apply (proj2 (proj2 (hex_decode_then_encode (JS.lit "00ff7a")))).
    + repeat constructor.
    + reflexivity.
Defined.

(** ** The base64 codec: what the decoder forgives *)

Lemma filter_idemp {A : Type} (f : A -> bool) (l : list A) :
  List.filter f (List.filter f l) = List.filter f l.
Proof.
  induction l as [|x l IH]; [reflexivity|]. simpl.
  destruct (f x) eqn:E; [|exact IH]. simpl. rewrite E, IH. reflexivity.
Qed.

Lemma atob_ignores_space (t : list Z) :
  JS.atob t
  = JS.atob (List.filter (fun c => negb (JS.is_ascii_whitespace c)) t).
Proof. unfold JS.atob. rewrite filter_idemp. reflexivity. Qed.

Lemma filter_pad_chars (vs : list Z) :
  Forall is_sextet vs ->
  List.filter (fun c => negb (c =? 61)) (map JS.b64_char vs)
  = map JS.b64_char vs.
Proof.
  induction 1 as [|v vs Hv _ IH]; [reflexivity|].
  simpl. rewrite (b64_char_not_pad v Hv), IH. reflexivity.
Qed.

Lemma b64_encode_unpadded (bytes : list Z) :
  List.filter (fun c => negb (c =? 61)) (JS.b64_encode bytes)
  = map JS.b64_char (b64_sextets bytes).
Proof.
  rewrite b64_encode_split, List.filter_app.
  rewrite filter_pad_chars by apply b64_sextets_range.
  destruct (b64_padding_cases bytes) as [->|[->| ->]];
    cbn; by rewrite app_nil_r.
Qed.

Lemma atob_unpadded (bytes : list Z) :
  bytes_ok bytes ->
  JS.atob (map JS.b64_char (b64_sextets bytes)) = Some bytes.
Proof.
  intros Hok. unfold JS.atob.
  rewrite filter_space_chars by apply b64_sextets_range.
  assert (Hs : JS.strip_padding (map JS.b64_char (b64_sextets bytes))
               = map JS.b64_char (b64_sextets bytes)).
  { destruct (Nat.eqb_spec
                (length (map JS.b64_char (b64_sextets bytes)) mod 4) 0)
      as [E|E].
    - rewrite <- (app_nil_r (map _ _)) at 1.
      apply strip_padding_chars;
        [apply b64_sextets_range|by rewrite app_nil_r|by left].
    - unfold JS.strip_padding.
      destruct (Nat.eqb_spec
                  (length (map JS.b64_char (b64_sextets bytes)) mod 4) 0);
        [contradiction|reflexivity]. }
  rewrite Hs, length_map, b64_sextets_length_mod.
  rewrite b64_values_chars by apply b64_sextets_range.
  rewrite drain_sextets by exact Hok. reflexivity.
Qed.

(** X7. The decoder does not need the padding and skips white space: a
    string that, once its ASCII white space is removed, is the base64
    rendering of a byte sequence, with or without the [=] at its end,
    decodes to that sequence. *)
Theorem base64_decode_forgiving (b s t : list Z) :
  bytes_ok b -> uint8ArrayToBase64 b = Some s ->
  List.filter (fun c => negb (JS.is_ascii_whitespace c)) t = s \/
  List.filter (fun c => negb (JS.is_ascii_whitespace c)) t
    = List.filter (fun c => negb (c =? 61)) s ->
  base64ToUint8Array t = b.
Proof.
  intros Hok Hs Ht. rewrite uint8ArrayToBase64_eq in Hs by exact Hok.
  injection Hs as <-.
  rewrite base64ToUint8Array_eq, atob_ignores_space.
  destruct Ht as [-> | ->].
  - rewrite atob_b64_encode by exact Hok. by apply ToUint8_bytes.
  - rewrite b64_encode_unpadded, atob_unpadded by exact Hok.
    by apply ToUint8_bytes.
Qed.

Lemma base64_decode_forgiving_witness :
  base64ToUint8Array (JS.lit "SGVs bG8= ") = [72; 101; 108; 108; 111] /\
  base64ToUint8Array (JS.lit " SGVsbG8") = [72; 101; 108; 108; 111].
Proof.
  split.
  - apply (base64_decode_forgiving [72; 101; 108; 108; 111]
             (JS.lit "SGVsbG8=") (JS.lit "SGVs bG8= ")).
    + unfold bytes_ok, is_u8. repeat constructor; lia.
    + reflexivity.
    + left. reflexivity.
  - apply (base64_decode_forgiving [72; 101; 108; 108; 111]
             (JS.lit "SGVsbG8=") (JS.lit " SGVsbG8")).
    + unfold bytes_ok, is_u8. repeat constructor; lia.
    + reflexivity.
    + right. reflexivity.
Defined.

(** ** The text codec: from a string to bytes and back *)

(** The encoder writes one well-formed sequence for a scalar value, and
    that sequence carries the value. *)
Lemma encoder_cases (cp : Z) :
  is_scalar cp ->
  (valid1 cp = true /\ JS.utf8_encoder_handler cp = [cp]) \/
  (exists b0 b1, JS.utf8_encoder_handler cp = [b0; b1] /\
     valid2 b0 b1 = true /\ scalar2 b0 b1 = cp) \/
  (exists b0 b1 b2, JS.utf8_encoder_handler cp = [b0; b1; b2] /\
     valid3 b0 b1 b2 = true /\ scalar3 b0 b1 b2 = cp) \/
  (exists b0 b1 b2 b3, JS.utf8_encoder_handler cp = [b0; b1; b2; b3] /\
     valid4 b0 b1 b2 b3 = true /\ scalar4 b0 b1 b2 b3 = cp).
Proof.
  unfold is_scalar. intros [Hr Hs].
  destruct (Z_le_gt_dec cp 127) as [H1|H1].
  { left. split; [unfold valid1, JS.in_range; lia|]. run_encoder. reflexivity. }
  right. destruct (Z_le_gt_dec cp 2047) as [H2|H2].
  { left. eexists _, _. split; [run_encoder; reflexivity|].
    change (6 * Z.of_nat 1) with 6. rewrite shiftr_div by lia.
    change (2 ^ 6) with 64.
    assert (1 < cp / 64 < 32 /\ 0 <= cp mod 64 < 64) by euclid.
    unfold valid2, scalar2, JS.in_range. split; [lia|euclid]. }
  right. destruct (Z_le_gt_dec cp 65535) as [H3|H3].
  { left. eexists _, _, _. split; [run_encoder; reflexivity|].
    change (6 * Z.of_nat 2) with 12. rewrite shiftr_div by lia.
    change (2 ^ 12) with 4096.
    assert (0 <= cp / 4096 < 16 /\ 0 <= (cp / 64) mod 64 < 64
            /\ 0 <= cp mod 64 < 64
            /\ cp = (cp / 4096 * 64 + (cp / 64) mod 64) * 64 + cp mod 64)
      as (Ha & Hb & Hc & Hd) by euclid.
    unfold valid3, scalar3, JS.in_range. split; [|lia].
    assert (cp / 4096 = 0 -> 32 <= (cp / 64) mod 64) by euclid.
    assert (cp / 4096 = 13 -> (cp / 64) mod 64 < 32) by euclid.
    lia. }
  right. eexists _, _, _, _. split; [run_encoder; reflexivity|].
  change (6 * Z.of_nat 3) with 18. rewrite shiftr_div by lia.
  change (2 ^ 18) with 262144.
  assert (0 <= cp / 262144 <= 4 /\ 0 <= (cp / 4096) mod 64 < 64
          /\ 0 <= (cp / 64) mod 64 < 64 /\ 0 <= cp mod 64 < 64
          /\ cp = ((cp / 262144 * 64 + (cp / 4096) mod 64) * 64
                   + (cp / 64) mod 64) * 64 + cp mod 64)
    as (Ha & Hb & Hc & Hd & He) by euclid.
  unfold valid4, scalar4, JS.in_range. split; [|lia].
  assert (cp / 262144 = 0 -> 16 <= (cp / 4096) mod 64) by euclid.
  assert (cp / 262144 = 4 -> (cp / 4096) mod 64 < 16) by euclid.
  lia.
Qed.

Lemma utf8_valid_seq1 (b0 : Z) (r : list Z) :
  valid1 b0 = true -> utf8_valid (b0 :: r) = utf8_valid r.
Proof. intros H. cbn [utf8_valid]. rewrite H. reflexivity. Qed.

Lemma utf8_valid_seq2 (b0 b1 : Z) (r : list Z) :
  valid2 b0 b1 = true -> utf8_valid (b0 :: b1 :: r) = utf8_valid r.
Proof.
  intros H. cbn [utf8_valid]. rewrite H.
  replace (valid1 b0) with false; [reflexivity|].
  unfold valid1, valid2, JS.in_range in *. lia.
Qed.

Lemma utf8_valid_seq3 (b0 b1 b2 : Z) (r : list Z) :
  valid3 b0 b1 b2 = true -> utf8_valid (b0 :: b1 :: b2 :: r) = utf8_valid r.
Proof.
  intros H. cbn [utf8_valid]. rewrite H.
  replace (valid1 b0) with false
    by (unfold valid1, valid3, JS.in_range in *; lia).
  replace (valid2 b0 b1) with false
    by (unfold valid2, valid3, JS.in_range in *; lia).
  reflexivity.
Qed.

Lemma utf8_valid_seq4 (b0 b1 b2 b3 : Z) (r : list Z) :
  valid4 b0 b1 b2 b3 = true ->
  utf8_valid (b0 :: b1 :: b2 :: b3 :: r) = utf8_valid r.
Proof.
  intros H. cbn [utf8_valid]. rewrite H.
  replace (valid1 b0) with false
    by (unfold valid1, valid4, JS.in_range in *; lia).
  replace (valid2 b0 b1) with false
    by (unfold valid2, valid4, JS.in_range in *; lia).
  replace (valid3 b0 b1 b2) with false
    by (unfold valid3, valid4, JS.in_range in *; lia).
  reflexivity.
Qed.

(** What the encoder writes for scalar values is valid UTF-8, and the
    decoder reads the scalar values back from it. *)
Lemma decode_encoded (cps : list Z) :
  Forall is_scalar cps ->
  utf8_valid (flat_map JS.utf8_encoder_handler cps) = true /\
  JS.utf8_decode JS.utf8_decoder_init (flat_map JS.utf8_encoder_handler cps)
  = Some cps.
Proof.
  induction 1 as [|cp cps Hcp _ [IHv IHd]]; [split; reflexivity|].
  cbn [flat_map].
  destruct (encoder_cases cp Hcp)
    as [[Hv ->]|[(b0 & b1 & -> & Hv & <-)|[(b0 & b1 & b2 & -> & Hv & <-)
       |(b0 & b1 & b2 & b3 & -> & Hv & <-)]]]; cbn [app].
  - rewrite utf8_valid_seq1, decode_seq1, IHd by exact Hv. by split.
  - rewrite utf8_valid_seq2, decode_seq2, IHd by exact Hv. by split.
  - rewrite utf8_valid_seq3, decode_seq3, IHd by exact Hv. by split.
  - rewrite utf8_valid_seq4, decode_seq4, IHd by exact Hv. by split.
Qed.

(** *** Strings and their scalar values *)

Lemma scalar_values_bounded (n : nat) (s : list Z) :
  (length s <= n)%nat -> Forall is_code_unit s ->
  Forall is_scalar (JS.scalar_values s).
Proof.
  revert s. induction n as [|n IH]; intros s Hlen Hs.
  { destruct s; [constructor|simpl in Hlen; lia]. }
  destruct s as [|c r]; [constructor|]. cbn [length] in Hlen.
  apply Forall_cons in Hs as [Hc Hr]. unfold is_code_unit in Hc.
  cbn [JS.scalar_values].
  destruct ((c <? 55296) || (57343 <? c)) eqn:E1.
  { constructor; [unfold is_scalar; lia|]. apply IH; [lia|exact Hr]. }
  destruct (56320 <=? c) eqn:E2.
  { constructor; [unfold is_scalar; lia|]. apply IH; [lia|exact Hr]. }
  destruct r as [|d r']; [repeat constructor; unfold is_scalar; lia|].
  cbn [length] in Hlen. pose proof Hr as Hr0.
  apply Forall_cons in Hr as [Hd Hr']. unfold is_code_unit in Hd.
  destruct (JS.in_range 56320 d 57343) eqn:E3.
  - constructor; [|apply IH; [lia|exact Hr']].
    rewrite !land_1023. unfold JS.in_range in E3. unfold is_scalar.
    assert (c mod 1024 = c - 55296) by euclid.
    assert (d mod 1024 = d - 56320) by euclid. lia.
  - constructor; [unfold is_scalar; lia|]. apply IH; [simpl; lia|exact Hr0].
Qed.

Lemma scalar_values_scalar (s : list Z) :
  Forall is_code_unit s -> Forall is_scalar (JS.scalar_values s).
Proof. apply (scalar_values_bounded (length s)). lia. Qed.

Lemma well_formed_code_units (s : list Z) :
  utf16_well_formed s = true -> Forall is_code_unit s.
Proof.
  assert (H : forall n s, (length s <= n)%nat ->
              utf16_well_formed s = true -> Forall is_code_unit s).
  { clear s. induction n as [|n IH]; intros s Hlen Hw.
    { destruct s; [constructor|simpl in Hlen; lia]. }
    destruct s as [|c r]; [constructor|]. cbn [length] in Hlen.
    cbn [utf16_well_formed] in Hw. unfold JS.in_range in Hw.
    destruct ((0 <=? c) && (c <=? 55295) || (57344 <=? c) && (c <=? 65535))
      eqn:E1.
    { constructor; [unfold is_code_unit; lia|]. apply IH; [lia|exact Hw]. }
    destruct ((55296 <=? c) && (c <=? 56319)) eqn:E2; [|discriminate].
    destruct r as [|d r']; [discriminate|]. cbn [length] in Hlen.
    apply andb_true_iff in Hw as [Hd Hw].
    constructor; [unfold is_code_unit; lia|].
    constructor; [unfold is_code_unit; lia|]. apply IH; [lia|exact Hw]. }
  apply (H (length s)). lia.
Qed.

(** The code units of the scalar values of a well-formed string are the
    string. *)
Lemma code_units_scalar_values (s : list Z) :
  utf16_well_formed s = true ->
  flat_map JS.code_units_of (JS.scalar_values s) = s.
Proof.
  assert (H : forall n s, (length s <= n)%nat ->
              utf16_well_formed s = true ->
              flat_map JS.code_units_of (JS.scalar_values s) = s).
  { clear s. induction n as [|n IH]; intros s Hlen Hw.
    { destruct s; [reflexivity|simpl in Hlen; lia]. }
    destruct s as [|c r]; [reflexivity|]. cbn [length] in Hlen.
    cbn [utf16_well_formed] in Hw. unfold JS.in_range in Hw.
    cbn [JS.scalar_values].
    destruct ((0 <=? c) && (c <=? 55295) || (57344 <=? c) && (c <=? 65535))
      eqn:E1.
    { replace ((c <? 55296) || (57343 <? c)) with true by lia.
      cbn [flat_map]. rewrite IH by (lia || exact Hw).
      unfold JS.code_units_of. replace (c <=? 65535) with true by lia.
      reflexivity. }
    destruct ((55296 <=? c) && (c <=? 56319)) eqn:E2; [|discriminate].
    destruct r as [|d r']; [discriminate|]. cbn [length] in Hlen.
    apply andb_true_iff in Hw as [Hd Hw].
    replace ((c <? 55296) || (57343 <? c)) with false by lia.
    replace (56320 <=? c) with false by lia.
    unfold JS.in_range. rewrite Hd. cbn [flat_map].
    rewrite IH by (lia || exact Hw).
    rewrite !land_1023.
    assert (Hc : c mod 1024 = c - 55296) by euclid.
    assert (Hd' : d mod 1024 = d - 56320) by euclid.
    rewrite Hc, Hd'. unfold JS.code_units_of.
    replace (65536 + 1024 * (c - 55296) + (d - 56320) <=? 65535)
      with false by lia.
    rewrite shiftr_div, land_1023 by lia. change (2 ^ 10) with 1024.
    cbn [app]. f_equal; [|f_equal]; euclid. }
  apply (H (length s)). lia.
Qed.

Lemma drop_bom_scalar_values (s : list Z) :
  head s <> Some 0xFEFF -> JS.drop_bom (JS.scalar_values s) = JS.scalar_values s.
Proof.
  intros Hh. destruct s as [|c r]; [reflexivity|].
  assert (Hc : c <> 65279) by (intros ->; by apply Hh).
  cbn [JS.scalar_values].
  destruct ((c <? 55296) || (57343 <? c)).
  { unfold JS.drop_bom. destruct (Z.eqb_spec c 65279); [contradiction|reflexivity]. }
  destruct (56320 <=? c); [reflexivity|].
  destruct r as [|d r']; [reflexivity|].
  destruct (JS.in_range 56320 d 57343); [|reflexivity].
  unfold JS.drop_bom. rewrite !land_1023.
  pose proof (Z.mod_pos_bound c 1024 ltac:(lia)).
  pose proof (Z.mod_pos_bound d 1024 ltac:(lia)).
  destruct (Z.eqb_spec (65536 + 1024 * (c mod 1024) + d mod 1024) 65279);
    [lia|reflexivity].
Qed.

(** X8. A string in which every surrogate is half of a pair, and which
    does not start with U+FEFF, comes back from the bytes it is encoded
    to; a first U+FEFF is the only thing lost. *)
Theorem text_encode_then_decode (s : list Z) :
  utf16_well_formed s = true ->
  (head s <> Some 0xFEFF ->
   uint8ArrayToString (stringToUint8Array s) = s) /\
  (head s = Some 0xFEFF ->
   uint8ArrayToString (stringToUint8Array s) = tail s).
Proof.
  intros Hw.
  pose proof (scalar_values_scalar s (well_formed_code_units s Hw)) as Hs.
  destruct (decode_encoded _ Hs) as [_ Hd].
  unfold uint8ArrayToString, stringToUint8Array, JS.TextDecoder_decode,
    JS.TextEncoder_encode.
  rewrite Hd. split; intros Hh.
  - rewrite drop_bom_scalar_values by exact Hh.
    by apply code_units_scalar_values.
  - destruct s as [|c r]; [discriminate|]. injection Hh as ->.
    change (utf16_well_formed r = true) in Hw.
    change (JS.drop_bom (JS.scalar_values (65279 :: r)))
      with (JS.scalar_values r).
    by apply code_units_scalar_values.
Qed.

Lemma text_encode_then_decode_witness :
  uint8ArrayToString (stringToUint8Array [0x70; 0xE9; 0x20AC; 0xD83D; 0xDE00])
    = [0x70; 0xE9; 0x20AC; 0xD83D; 0xDE00] /\
  uint8ArrayToString (stringToUint8Array [0xFEFF; 0x70]) = [0x70].
Proof.
  split.
  - apply (proj1 (text_encode_then_decode
                    [0x70; 0xE9; 0x20AC; 0xD83D; 0xDE00] eq_refl)).
    discriminate.
  - apply (proj2 (text_encode_then_decode [0xFEFF; 0x70] eq_refl)).
    reflexivity.
Defined.

(** X9. The bytes a string is encoded to are always valid UTF-8, whatever
    the string: a surrogate without its partner is encoded as U+FFFD. *)
Theorem text_encode_valid (s : list Z) :
  Forall is_code_unit s -> utf8_valid (stringToUint8Array s) = true.
Proof.
  intros Hs. unfold stringToUint8Array, JS.TextEncoder_encode.
  apply decode_encoded. by apply scalar_values_scalar.
Qed.

Lemma text_encode_valid_witness :
  utf8_valid (stringToUint8Array [0x41; 0xDC00; 0xD800; 0xFFFF]) = true.
Proof.
  apply (text_encode_valid [0x41; 0xDC00; 0xD800; 0xFFFF]).
  unfold is_code_unit. repeat constructor; lia.
Defined.

Lemma stringToUint8Array_ascii (s : list Z) :
  Forall (fun c => 0 <= c <= 127) s -> stringToUint8Array s = s.
Proof.
  unfold stringToUint8Array, JS.TextEncoder_encode.
  induction 1 as [|c r Hc _ IH]; [reflexivity|].
  cbn [JS.scalar_values].
  replace ((c <? 55296) || (57343 <? c)) with true by lia.
  cbn [flat_map]. rewrite IH.
  unfold JS.utf8_encoder_handler, JS.in_range.
  replace ((0 <=? c) && (c <=? 127)) with true by lia. reflexivity.
Qed.

(** X10. A passphrase of ASCII characters is encoded to the codes of its
    characters, one byte each. *)
Theorem text_encode_ascii (s : list Z) :
  Forall (fun c => 0 <= c <= 127) s -> stringToUint8Array s = s.
Proof. apply stringToUint8Array_ascii. Qed.

Lemma text_encode_ascii_witness :
  stringToUint8Array (JS.lit "pass word") = JS.lit "pass word".
Proof.
  apply (text_encode_ascii (JS.lit "pass word")).
  repeat constructor; vm_compute; discriminate.
Defined.

Lemma encoder_length (cp : Z) :
  length (JS.utf8_encoder_handler cp)
  = if JS.in_range 0 cp 127 then 1%nat
    else if JS.in_range 128 cp 2047 then 2%nat
    else if JS.in_range 2048 cp 65535 then 3%nat
    else 4%nat.
Proof.
  unfold JS.utf8_encoder_handler.
  destruct (JS.in_range 0 cp 127); [reflexivity|].
  destruct (JS.in_range 128 cp 2047); [reflexivity|].
  destruct (JS.in_range 2048 cp 65535); reflexivity.
Qed.

Lemma text_encode_length_bounded (n : nat) (s : list Z) :
  (length s <= n)%nat -> Forall is_code_unit s ->
  (length s <= length (stringToUint8Array s) <= 3 * length s)%nat.
Proof.
  unfold stringToUint8Array, JS.TextEncoder_encode.
  revert s. induction n as [|n IH]; intros s Hlen Hs.
  { destruct s; [simpl; lia|simpl in Hlen; lia]. }
  destruct s as [|c r]; [simpl; lia|]. cbn [length] in Hlen.
  pose proof Hs as Hs0. apply Forall_cons in Hs as [Hc Hr].
  unfold is_code_unit in Hc. cbn [JS.scalar_values].
  destruct ((c <? 55296) || (57343 <? c)) eqn:E1.
  { cbn [flat_map]. rewrite length_app, encoder_length.
    pose proof (IH r ltac:(lia) Hr). cbn [length]. unfold JS.in_range.
    repeat match goal with |- context [if ?b then _ else _] =>
      destruct b eqn:? end; lia. }
  destruct (56320 <=? c) eqn:E2.
  { cbn [flat_map]. rewrite length_app.
    change (length (JS.utf8_encoder_handler 65533)) with 3%nat.
    pose proof (IH r ltac:(lia) Hr). cbn [length]. lia. }
  destruct r as [|d r']; [simpl; lia|]. cbn [length] in Hlen.
  pose proof Hr as Hr0. apply Forall_cons in Hr as [Hd Hr'].
  destruct (JS.in_range 56320 d 57343) eqn:E3.
  - cbn [flat_map]. rewrite length_app, encoder_length.
    pose proof (IH r' ltac:(lia) Hr'). cbn [length].
    rewrite !land_1023.
    pose proof (Z.mod_pos_bound c 1024 ltac:(lia)).
    pose proof (Z.mod_pos_bound d 1024 ltac:(lia)).
    unfold JS.in_range.
    repeat match goal with |- context [if ?b then _ else _] =>
      destruct b eqn:? end; lia.
  - cbn [flat_map]. rewrite length_app.
    change (length (JS.utf8_encoder_handler 65533)) with 3%nat.
    pose proof (IH (d :: r') ltac:(simpl; lia) Hr0) as HH.
    cbn [length] in HH |- *. lia.
Qed.

(** X11. The key of a passphrase has at least one byte and at most three
    bytes per code unit of the passphrase. *)
Theorem text_encode_length (s : list Z) :
  Forall is_code_unit s ->
  (length s <= length (stringToUint8Array s) <= 3 * length s)%nat.
Proof. apply (text_encode_length_bounded (length s)). lia. Qed.

Lemma text_encode_length_witness :
  let s := [0x70; 0xE9; 0x20AC; 0xD83D; 0xDE00] in
  (length s <= length (stringToUint8Array s) <= 3 * length s)%nat.
Proof.
  intros s. apply (text_encode_length s).
  unfold is_code_unit. repeat constructor; lia.
Defined.

Lemma placeholder_cases (b : list Z) :
  uint8ArrayToString b = JS.lit "[Binary Content]" ->
  utf8_valid b = false \/ b = JS.lit "[Binary Content]"
  \/ b = utf8_bom ++ JS.lit "[Binary Content]".
Proof.
  intros H. destruct (utf8_valid b) eqn:Hv; [right|by left].
  destruct (decide (take 3 b = utf8_bom)) as [Hb|Hb].
  - right. rewrite <- (take_drop 3 b), Hb in Hv |- *.
    pose proof (text_round_trip_bom _ Hv) as Hrt.
    rewrite <- (take_drop 3 b), Hb in H. rewrite H in Hrt.
    rewrite <- Hrt. reflexivity.
  - left. pose proof (text_round_trip_valid b Hv Hb) as Hrt.
    rewrite H in Hrt. rewrite <- Hrt. reflexivity.
Qed.

(** X12. The placeholder is what [uint8ArrayToString] returns for bytes
    that are not valid UTF-8, and also for the bytes of the placeholder
    text itself, with or without a byte order mark in front: the result
    does not tell these apart. It is returned for no other input. *)
Theorem placeholder_iff (b : list Z) :
  uint8ArrayToString b = JS.lit "[Binary Content]" <->
  utf8_valid b = false \/ b = JS.lit "[Binary Content]"
  \/ b = utf8_bom ++ JS.lit "[Binary Content]".
Proof.
  split; [apply placeholder_cases|].
  intros [Hv|[-> | ->]]; [|reflexivity..].
  by apply text_round_trip_invalid.
Qed.

Lemma placeholder_iff_witness :
  uint8ArrayToString [0xC3; 0x28] = JS.lit "[Binary Content]" /\
  (utf8_valid (JS.lit "[Binary Content]") = false
   \/ JS.lit "[Binary Content]" = JS.lit "[Binary Content]"
   \/ JS.lit "[Binary Content]" = utf8_bom ++ JS.lit "[Binary Content]").
Proof.
  split.
  - apply (proj2 (placeholder_iff [0xC3; 0x28])). left. reflexivity.
  - apply (proj1 (placeholder_iff (JS.lit "[Binary Content]"))). reflexivity.
Defined.

(** ** The key input: bytes of the key under the handlers *)

Lemma string_eqb_eq (a b : list Z) : JSLib.string_eqb a b = true <-> a = b.
Proof.
  revert b. induction a as [|x a IH]; intros [|y b]; simpl;
    try (split; [discriminate|discriminate]); [split; reflexivity|].
  rewrite andb_true_iff, Z.eqb_eq, IH. split.
  - intros [-> ->]. reflexivity.
  - intros H. injection H as -> ->. by split.
Qed.

Lemma KeyMode_eqb_eq (a b : KeyMode) : KeyMode_eqb a b = true <-> a = b.
Proof. destruct a, b; simpl; split; congruence. Qed.

(** *** The generated key *)

Lemma generateRandomKey_lookup (random : nat -> Z) (n i : nat) :
  generateRandomKey random n !! i
  = if decide (i < n)%nat then Some (random i mod 256) else None.
Proof.
  unfold generateRandomKey, JSLib.getRandomValues, JS.new_Uint8Array.
  rewrite (store_loop_lookup (fun i => Some (random i)))
    by (rewrite !length_replicate; lia).
  rewrite length_replicate.
  repeat case_decide; try lia; [reflexivity|].
  apply lookup_replicate_None. lia.
Qed.

Lemma generateRandomKey_length (random : nat -> Z) (n : nat) :
  length (generateRandomKey random n) = n.
Proof.
  unfold generateRandomKey, JSLib.getRandomValues, JS.new_Uint8Array.
  rewrite (store_loop_length (fun i => Some (random i))).
  apply length_replicate.
Qed.

Lemma generateRandomKey_bytes (random : nat -> Z) (n : nat) :
  bytes_ok (generateRandomKey random n).
Proof.
  apply Forall_lookup_2. intros i x Hx.
  rewrite generateRandomKey_lookup in Hx. case_decide; [|discriminate].
  injection Hx as <-. unfold is_u8. apply Z.mod_pos_bound. lia.
Qed.

(** *** The bytes of a key are bytes *)

Lemma pair_nibbles_bytes (ns : list Z) :
  Forall (fun n => 0 <= n <= 15) ns -> bytes_ok (pair_nibbles ns).
Proof.
  induction ns as [| n | h l r IH] using list_pair_ind; intros H.
  - constructor.
  - apply Forall_cons in H as [Hn _]. repeat constructor; unfold is_u8; lia.
  - apply Forall_cons in H as [Hh H]. apply Forall_cons in H as [Hl H].
    cbn [pair_nibbles]. constructor; [unfold is_u8; lia|]. by apply IH.
Qed.

Lemma hexToUint8Array_bytes (s : list Z) : bytes_ok (hexToUint8Array s).
Proof.
  rewrite hexToUint8Array_nibbles. apply pair_nibbles_bytes.
  pose proof (replace_non_hex_all s) as H.
  induction H as [|c r Hc _ IH]; constructor; [|exact IH].
  by apply nibble_range.
Qed.

Lemma base64ToUint8Array_bytes (s : list Z) : bytes_ok (base64ToUint8Array s).
Proof.
  rewrite base64ToUint8Array_eq. destruct (JS.atob s) as [bin|]; [|constructor].
  induction bin as [|c r IH]; constructor; [|exact IH].
  unfold is_u8, JS.ToUint8. apply Z.mod_pos_bound. lia.
Qed.

Lemma utf8_valid_bytes (b : list Z) : utf8_valid b = true -> bytes_ok b.
Proof.
  revert b. apply utf8_valid_ind.
  - constructor.
  - intros b0 r H _ IH. in_range_bounds.
    constructor; [unfold is_u8; lia|exact IH].
  - intros b0 b1 r H _ IH. in_range_bounds.
    repeat (constructor; [unfold is_u8; lia|]). exact IH.
  - intros b0 b1 b2 r H _ IH.
    in_range_bounds; repeat (constructor; [unfold is_u8; lia|]); exact IH.
  - intros b0 b1 b2 b3 r H _ IH.
    in_range_bounds; repeat (constructor; [unfold is_u8; lia|]); exact IH.
Qed.

Lemma stringToUint8Array_bytes (s : list Z) :
  Forall is_code_unit s -> bytes_ok (stringToUint8Array s).
Proof.
  intros Hs. apply utf8_valid_bytes.
  unfold stringToUint8Array, JS.TextEncoder_encode.
  apply decode_encoded. by apply scalar_values_scalar.
Qed.

Lemma keyBytes_bytes (v : list Z) (m : KeyMode) :
  (m = mode_text -> Forall is_code_unit v) -> bytes_ok (keyBytes v m).
Proof.
  intros Hv. destruct m; unfold keyBytes; cbn [KeyMode_eqb].
  - apply hexToUint8Array_bytes.
  - apply stringToUint8Array_bytes. by apply Hv.
  - apply base64ToUint8Array_bytes.
Qed.

Lemma hexToUint8Array_encoded (b : list Z) :
  bytes_ok b -> hexToUint8Array (uint8ArrayToHex b) = b.
Proof.
  induction 1 as [|x bs Hx Hbs IH]; [reflexivity|].
  destruct (byte_hex_digits x Hx) as (h & l & E & _ & _ & Hh & Hl & Hv).
  rewrite uint8ArrayToHex_cons, E, hexToUint8Array_nibbles.
  unfold JS.replace_non_hex in *. simpl. rewrite Hh, Hl. simpl.
  rewrite Hv. f_equal. rewrite hexToUint8Array_nibbles in IH. exact IH.
Qed.

Lemma base64ToUint8Array_encoded (b : list Z) :
  bytes_ok b -> base64ToUint8Array (JS.b64_encode b) = b.
Proof.
  intros Hb. rewrite base64ToUint8Array_eq, atob_b64_encode by exact Hb.
  by apply ToUint8_bytes.
Qed.

(** X13. Switching the key input to hex or to base64 keeps the bytes of
    the key: the new text is the rendering of the old key bytes, and it
    decodes to them. *)
Theorem handleModeSwitch_keeps_key (p : KeyInputProps) (newMode : KeyMode) :
  newMode <> mode_text ->
  (mode p = mode_text -> Forall is_code_unit (keyValue p)) ->
  mode (handleModeSwitch p newMode) = newMode /\
  keyBytes (keyValue (handleModeSwitch p newMode)) newMode
  = keyBytes (keyValue p) (mode p).
Proof.
  intros Hnew Hcu. unfold handleModeSwitch.
  destruct (KeyMode_eqb newMode (mode p)) eqn:E.
  { apply KeyMode_eqb_eq in E. subst newMode. by split. }
  pose proof (keyBytes_bytes (keyValue p) (mode p) Hcu) as Hkb.
  destruct newMode; [|congruence|]; cbn [KeyMode_eqb].
  - cbn [keyValue mode]. split; [reflexivity|].
    unfold keyBytes at 1. cbn [KeyMode_eqb].
    by apply hexToUint8Array_encoded.
  - rewrite uint8ArrayToBase64_eq by exact Hkb. cbn [keyValue mode].
    split; [reflexivity|]. unfold keyBytes at 1. cbn [KeyMode_eqb].
    by apply base64ToUint8Array_encoded.
Qed.

Lemma handleModeSwitch_keeps_key_witness :
  let p := KeyInput_props (JS.lit "de:ad-BE#EF") mode_hex in
  mode (handleModeSwitch p mode_base64) = mode_base64 /\
  keyBytes (keyValue (handleModeSwitch p mode_base64)) mode_base64
  = keyBytes (keyValue p) (mode p).
Proof.
  intros p. apply (handleModeSwitch_keeps_key p mode_base64).
  - discriminate.
  - discriminate.
Defined.

(** X14. Switching the key input to text keeps the bytes of the key when
    they are valid UTF-8, do not start with the byte order mark and are
    not the bytes of the placeholder text. When they are not valid UTF-8,
    or are the bytes of the placeholder text, the key field is emptied and
    the key is lost. *)
Theorem handleModeSwitch_to_text (p : KeyInputProps) :
  mode p <> mode_text ->
  let kb := keyBytes (keyValue p) (mode p) in
  let p' := handleModeSwitch p mode_text in
  mode p' = mode_text /\
  (utf8_valid kb = true -> take 3 kb <> utf8_bom ->
   kb <> JS.lit "[Binary Content]" ->
   keyBytes (keyValue p') mode_text = kb) /\
  (utf8_valid kb = false \/ kb = JS.lit "[Binary Content]" ->
   keyValue p' = [] /\ keyBytes (keyValue p') mode_text = []).
Proof.
  intros Hm kb p'. unfold p', handleModeSwitch.
  destruct (KeyMode_eqb mode_text (mode p)) eqn:E.
  { apply KeyMode_eqb_eq in E. congruence. }
  cbn [KeyMode_eqb]. fold kb. cbn [keyValue mode].
  split; [reflexivity|]. split.
  - intros Hv Hb Hs.
    destruct (JSLib.string_eqb (uint8ArrayToString kb) (JS.lit "[Binary Content]"))
      eqn:Es.
    + apply string_eqb_eq, placeholder_cases in Es.
      destruct Es as [Es|[Es|Es]]; [congruence|congruence|].
      exfalso. apply Hb. rewrite Es. reflexivity.
    + unfold keyBytes. cbn [KeyMode_eqb]. by apply text_round_trip_valid.
  - intros Hc.
    replace (JSLib.string_eqb (uint8ArrayToString kb) (JS.lit "[Binary Content]"))
      with true; [by split|].
    symmetry. apply string_eqb_eq. destruct Hc as [Hv| ->]; [|reflexivity].
    by apply text_round_trip_invalid.
Qed.

Lemma handleModeSwitch_to_text_witness :
  keyBytes (keyValue (handleModeSwitch
                        (KeyInput_props (JS.lit "48656c6c6f") mode_hex) mode_text))
    mode_text
  = keyBytes (JS.lit "48656c6c6f") mode_hex /\
  keyValue (handleModeSwitch (KeyInput_props (JS.lit "ff00") mode_hex) mode_text)
  = [].
Proof.
  split.
  - apply (proj1 (proj2 (handleModeSwitch_to_text
             (KeyInput_props (JS.lit "48656c6c6f") mode_hex) ltac:(discriminate))));
      [reflexivity|discriminate|discriminate].
  - apply (proj2 (proj2 (handleModeSwitch_to_text
             (KeyInput_props (JS.lit "ff00") mode_hex) ltac:(discriminate)))).
    left. reflexivity.
Defined.

(** X15. In hex and in base64 mode, "Randomize Key" leaves a key of
    exactly the 16 bytes drawn from the random source. *)
Theorem handleGenerate_hex_base64 (random : nat -> Z) (p : KeyInputProps) :
  mode p <> mode_text ->
  mode (handleGenerate random p) = mode p /\
  keyBytes (keyValue (handleGenerate random p)) (mode p)
  = generateRandomKey random 16 /\
  length (keyBytes (keyValue (handleGenerate random p)) (mode p)) = 16%nat.
Proof.
  intros Hm. pose proof (generateRandomKey_bytes random 16) as Hb.
  assert (H : mode (handleGenerate random p) = mode p /\
              keyBytes (keyValue (handleGenerate random p)) (mode p)
              = generateRandomKey random 16).
  { unfold handleGenerate. destruct (mode p) eqn:E; [|congruence|];
      cbn [KeyMode_eqb].
    - cbn [keyValue mode]. split; [reflexivity|].
      unfold keyBytes. cbn [KeyMode_eqb]. by apply hexToUint8Array_encoded.
    - rewrite uint8ArrayToBase64_eq by exact Hb. cbn [keyValue mode].
      split; [reflexivity|]. unfold keyBytes. cbn [KeyMode_eqb].
      by apply base64ToUint8Array_encoded. }
  destruct H as [H1 H2]. repeat split; [exact H1|exact H2|].
  rewrite H2. apply generateRandomKey_length.
Qed.

Lemma handleGenerate_hex_base64_witness :
  let random := fun i => Z.of_nat i * 77 + 300 in
  let p := KeyInput_props [] mode_base64 in
  mode (handleGenerate random p) = mode p /\
  keyBytes (keyValue (handleGenerate random p)) (mode p)
  = generateRandomKey random 16 /\
  length (keyBytes (keyValue (handleGenerate random p)) (mode p)) = 16%nat.
Proof.
  intros random p. apply (handleGenerate_hex_base64 random p). discriminate.
Defined.

Lemma replace_non_printable_ascii (s : list Z) :
  Forall (fun c => 32 <= c <= 126) (JSLib.replace_non_printable s).
Proof.
  unfold JSLib.replace_non_printable, JS.in_range.
  induction s as [|c r IH]; constructor; [|exact IH].
  destruct ((32 <=? c) && (c <=? 126)) eqn:E; lia.
Qed.

(** X16. In text mode, "Randomize Key" leaves a key of printable ASCII
    characters, whose bytes are the codes of these characters; when the 16
    random bytes are not valid UTF-8, the key is the placeholder text and
    does not depend on the random bytes at all. *)
Theorem handleGenerate_text (random : nat -> Z) (p : KeyInputProps) :
  mode p = mode_text ->
  let p' := handleGenerate random p in
  Forall (fun c => 32 <= c <= 126) (keyValue p') /\
  keyBytes (keyValue p') mode_text = keyValue p' /\
  (utf8_valid (generateRandomKey random 16) = false ->
   keyValue p' = JS.lit "[Binary Content]").
Proof.
  intros Hm p'. unfold p', handleGenerate. rewrite Hm. cbn [KeyMode_eqb keyValue].
  split; [apply replace_non_printable_ascii|]. split.
  - unfold keyBytes. cbn [KeyMode_eqb]. apply stringToUint8Array_ascii.
    eapply Forall_impl; [apply replace_non_printable_ascii|].
    intros c Hc. simpl in Hc. lia.
  - intros Hv.
    rewrite (proj1 (text_round_trip_invalid _ Hv)). reflexivity.
Qed.

Lemma handleGenerate_text_witness :
  let random := fun i => Z.of_nat i * 77 in
  keyValue (handleGenerate random (KeyInput_props [] mode_text))
  = JS.lit "[Binary Content]".
Proof.
  intros random.
  apply (proj2 (proj2 (handleGenerate_text random
                         (KeyInput_props [] mode_text) eq_refl))).
  reflexivity.
Defined.

(** ** The application: names, guards and results *)

Lemma endsWith_app (s suffix : list Z) : JSLib.endsWith (s ++ suffix) suffix = true.
Proof.
  unfold JSLib.endsWith. rewrite length_app. apply andb_true_iff. split.
  - apply Nat.leb_le. lia.
  - replace (length s + length suffix - length suffix)%nat with (length s) by lia.
    rewrite drop_app_length. by apply string_eqb_eq.
Qed.

(** X17. The name suggested for a decrypted file undoes the name suggested
    for the encrypted one: a file saved under the name offered after
    encrypting is offered its original name after decrypting. *)
Theorem downloadName_round_trip (f : File) (bytes : list Z) :
  downloadName DECRYPT
    (Some (Build_File (downloadName ENCRYPT (Some f)) bytes))
  = file_name f.
Proof.
  cbn [downloadName file_name]. rewrite endsWith_app.
  unfold JSLib.slice_0_neg. rewrite length_app.
  replace (length (file_name f) + length (JS.lit ".xor") - 4)%nat
    with (length (file_name f)) by (simpl; lia).
  apply take_app_length.
Qed.

(** X18. The suggested name is never the name of the source file: it is
    longer by four characters after encrypting, and after decrypting it is
    shorter by four (a name ending in [.xor]) or longer by ten. *)
Theorem downloadName_differs (m : ProcessMode) (f : File) :
  downloadName m (Some f) <> file_name f /\
  (m = ENCRYPT ->
   length (downloadName m (Some f)) = (length (file_name f) + 4)%nat) /\
  (m = DECRYPT ->
   if JSLib.endsWith (file_name f) (JS.lit ".xor")
   then (length (downloadName m (Some f)) + 4)%nat = length (file_name f)
   else length (downloadName m (Some f)) = (length (file_name f) + 10)%nat).
Proof.
  assert (He : length (downloadName ENCRYPT (Some f))
               = (length (file_name f) + 4)%nat).
  { cbn [downloadName]. rewrite length_app. reflexivity. }
  assert (Hd : if JSLib.endsWith (file_name f) (JS.lit ".xor")
               then (length (downloadName DECRYPT (Some f)) + 4)%nat
                    = length (file_name f)
               else length (downloadName DECRYPT (Some f))
                    = (length (file_name f) + 10)%nat).
  { cbn [downloadName].
    destruct (JSLib.endsWith (file_name f) (JS.lit ".xor")) eqn:E.
    - unfold JSLib.endsWith in E. apply andb_true_iff in E as [E _].
      apply Nat.leb_le in E. simpl in E.
      unfold JSLib.slice_0_neg. rewrite length_take. lia.
    - rewrite length_app. simpl. lia. }
  split; [|split; intros ->; assumption].
  intros Heq. apply (f_equal length) in Heq. destruct m.
  - lia.
  - destruct (JSLib.endsWith (file_name f) (JS.lit ".xor")); lia.
Qed.

Lemma downloadName_differs_witness :
  let f := Build_File (JS.lit "notes.txt.xor") [] in
  length (downloadName ENCRYPT (Some f)) = (length (file_name f) + 4)%nat /\
  (length (downloadName DECRYPT (Some f)) + 4)%nat = length (file_name f).
Proof.
  intros f. split.
  - apply (proj1 (proj2 (downloadName_differs ENCRYPT f))). reflexivity.
  - apply (proj2 (proj2 (downloadName_differs DECRYPT f)) eq_refl).
Defined.

(** X19. [processFile] starts a read only for a selected file and a key of
    at least one byte, and then clears the error and raises the busy
    flag; otherwise it sets the error message and starts nothing. *)
Theorem processFile_guard (st : AppState) :
  (forall f kb, snd (processFile st) = Some (f, kb) ->
     file st = Some f /\ kb = keyBytes (encryptionKey st) (keyMode st) /\
     kb <> [] /\ isProcessing (fst (processFile st)) = true /\
     error (fst (processFile st)) = None) /\
  (file st = None \/ keyBytes (encryptionKey st) (keyMode st) = [] ->
   snd (processFile st) = None /\
   error (fst (processFile st)) = Some (JS.lit "Please provide a valid key.") /\
   isProcessing (fst (processFile st)) = isProcessing st /\
   processedFile (fst (processFile st)) = processedFile st).
Proof.
  unfold processFile. split.
  - intros f kb H. destruct (file st) as [f0|]; [|discriminate].
    destruct (Nat.eqb_spec (length (keyBytes (encryptionKey st) (keyMode st))) 0)
      as [E|E]; [discriminate|].
    cbn [snd fst] in *. injection H as <- <-. repeat split.
    intros Hk. rewrite Hk in E. by apply E.
  - intros [Hf|Hk].
    + rewrite Hf. repeat split.
    + rewrite Hk. destruct (file st); repeat split.
Qed.

Lemma processFile_guard_witness :
  let st := Build_AppState (Some (Build_File (JS.lit "a.txt") [1; 2; 3]))
              (JS.lit "zz") mode_hex false None None ENCRYPT in
  snd (processFile st) = None /\
  error (fst (processFile st)) = Some (JS.lit "Please provide a valid key.") /\
  isProcessing (fst (processFile st)) = isProcessing st /\
  processedFile (fst (processFile st)) = processedFile st.
Proof.
  intros st. apply (proj2 (processFile_guard st)). right. reflexivity.
Defined.




(** X21. A file processed and then processed again with the same key is
    the file again: when [processFile] has started a read, the result its
    callback stores has the length of the file, and the callback run on
    that result with the same key bytes stores the bytes of the file. *)
Theorem processFile_twice (st st1 st2 : AppState) (f : File) (kb : list Z) :
  snd (processFile st) = Some (f, kb) ->
  (keyMode st = mode_text -> Forall is_code_unit (encryptionKey st)) ->
  bytes_ok (file_bytes f) ->
  exists out,
    processedFile (reader_onload kb (file_bytes f) st1) = Some out /\
    length out = length (file_bytes f) /\
    processedFile (reader_onload kb out st2) = Some (file_bytes f).
Proof.
  intros Hs Hcu Hb. unfold processFile in Hs.
  destruct (file st) as [f0|]; [|discriminate].
  destruct (Nat.eqb_spec (length (keyBytes (encryptionKey st) (keyMode st))) 0)
    as [E|E]; [discriminate|].
  cbn [snd] in Hs. injection Hs as <- <-.
  set (kb := keyBytes (encryptionKey st) (keyMode st)) in *.
  assert (Hkb : bytes_ok kb) by (by apply keyBytes_bytes).
  assert (Hne : kb <> []) by (intros Hk; rewrite Hk in E; by apply E).
  exists (xorBuffer (file_bytes f0) kb). cbn [reader_onload processedFile].
  split; [reflexivity|]. split; [apply xorBuffer_length|]. f_equal.
  apply list_eq. intros i.
  rewrite !xorBuffer_lookup_total by auto using xorBuffer_bytes_ok.
  destruct (file_bytes f0 !! i) as [x|]; [|reflexivity].
  destruct (key_lookup_mod kb i Hne) as [y ->].
  rewrite Z.lxor_assoc, Z.lxor_nilpotent, Z.lxor_0_r. reflexivity.
Qed.

Lemma processFile_twice_witness :
  let f := Build_File (JS.lit "a.txt") [72; 101; 108; 108; 111] in
  let st := Build_AppState (Some f) (JS.lit "2a07") mode_hex false None None
              ENCRYPT in
  exists out,
    processedFile (reader_onload [42; 7] (file_bytes f) st) = Some out /\
    length out = length (file_bytes f) /\
    processedFile (reader_onload [42; 7] out st) = Some (file_bytes f).
Proof.
  intros f st. apply (processFile_twice st st st f [42; 7]).
  - reflexivity.
  - discriminate.
  - unfold bytes_ok, is_u8. repeat constructor; lia.
Defined.

Lemma uint8ArrayToHex_length (b : list Z) :
  bytes_ok b -> length (uint8ArrayToHex b) = (2 * length b)%nat.
Proof.
  induction 1 as [|x bs Hx _ IH]; [reflexivity|].
  destruct (byte_hex_digits x Hx) as (h & l & E & _).
  rewrite uint8ArrayToHex_cons, E. simpl. rewrite IH. lia.
Qed.

(** X22. The analysis is handed at most the first 128 bytes of the file:
    the hex header has two characters per byte of that prefix, 256 at
    most, and decodes to exactly that prefix. *)
Theorem hexHeader_prefix (f : File) :
  bytes_ok (file_bytes f) ->
  length (hexHeader f) = (2 * min 128 (length (file_bytes f)))%nat /\
  (length (hexHeader f) <= 256)%nat /\
  hexToUint8Array (hexHeader f) = take 128 (file_bytes f).
Proof.
  intros Hb. unfold hexHeader, JSLib.blob_slice_0.
  assert (Ht : bytes_ok (take 128 (file_bytes f))) by (by apply Forall_take).
  rewrite uint8ArrayToHex_length, length_take by exact Ht.
  repeat split; [lia|]. by apply hexToUint8Array_encoded.
Qed.

Lemma hexHeader_prefix_witness :
  let f := Build_File (JS.lit "a.bin") (replicate 200 255) in
  length (hexHeader f) = (2 * min 128 (length (file_bytes f)))%nat /\
  (length (hexHeader f) <= 256)%nat /\
  hexToUint8Array (hexHeader f) = take 128 (file_bytes f).
Proof.
  intros f. apply (hexHeader_prefix f).
  apply Forall_replicate. unfold is_u8. lia.
Defined.
